(** * expiring_arrays: bounded, self-evicting ordered collections

    A shallow embedding of [expiring_arrays.py] (classes [LRUArray],
    [TTLArray], [STLArray] and the decorators [expire] / [expire_post]),
    followed by the properties of the eviction engine.

    Modelling conventions.
    - A Python method is a computation in the monad [M E S A]: it takes
      the store [S] and gives back an outcome (a returned value or a raised
      exception) together with the store at that moment.  A raised
      exception keeps every mutation made before it, as in Python.
    - A [deque] is a list whose head is the left end: [appendleft] is
      cons, [pop] removes the last element.
    - A [dict] used as a map is a [gmap]; its iteration order is never
      observed by the source.
    - Elements are an arbitrary type with decidable equality and a
      countable encoding (hashable, equality-comparable values).
    - A timing record [[timestamp, element]] is a pair; a timestamp is an
      integer: seconds for [STLArray], microseconds for the [datetime] of
      [TTLArray].  A [TTLArray] that holds a plain number where a
      [datetime] belongs raises [TypeError] when the sweep subtracts it
      from the clock; this is modelled where the library itself stores
      such numbers ([deserialize]), and a caller that hands [load] or
      [load_from_timing_list] timestamps of the wrong kind is not.
    - The clock is an oracle: the [n]-th reading of [_no_right_now] returns
      [clock n], and the store counts the readings.  Nothing is assumed
      about [clock] unless a statement says so.
    - The [json] module is a pair of functions on timing sequences, given
      as parameters.
    - The module-level [lock] only serialises whole calls; each decorated
      call is modelled as one atomic computation, so both branches of the
      [threadsafe] test coincide.
    - [LRUArray.dump] and [LRUArray.load] hand over the deque itself, not
      a copy.  Module [LRUArray] is one collection whose deque no other
      collection holds: there [dump] and [load] exchange the content.
      Module [LRUShared] is a heap of deques and the collections that
      refer to them: there [dump] returns the reference, [load] of a deque
      stores the reference, and a call on one collection is seen by every
      collection that refers to the same deque. *)

From Stdlib Require Import ZArith.
From stdpp Require Import gmap strings list fin_maps.

Local Open Scope Z_scope.

(** ** Python runtime: exceptions, the state-and-exception monad, deques *)

Module Py.

Section Runtime.
Context {E : Type}.

(** The exceptions the source can raise.  A [KeyError] carries the
    missing key: a field name of a snapshot or an element. *)
Inductive exn : Type :=
| IndexError
| KeyError (k : string + E)
| ValueError
| TypeError.

Inductive outcome (A : Type) : Type :=
| Return (a : A)
| Raise (e : exn).
#[global] Arguments Return {A} a.
#[global] Arguments Raise {A} e.

Definition M (S A : Type) : Type := S -> outcome A * S.

Definition ret {S A} (a : A) : M S A := fun s => (Return a, s).

Definition bind {S A B} (m : M S A) (f : A -> M S B) : M S B :=
  fun s => match m s with
           | (Return a, s') => f a s'
           | (Raise e, s') => (Raise e, s')
           end.

Definition raise {S A} (e : exn) : M S A := fun s => (Raise e, s).
Definition get {S} : M S S := fun s => (Return s, s).
Definition gets {S A} (f : S -> A) : M S A := fun s => (Return (f s), s).
Definition modify {S} (f : S -> S) : M S unit := fun s => (Return tt, f s).

(** [run m s] is the store left behind by a call, whether it returned or
    raised (a caller that catches the exception goes on with it). *)
Definition run {S A} (m : M S A) (s : S) : S := snd (m s).
End Runtime.

#[global] Arguments exn : clear implicits.
#[global] Arguments outcome : clear implicits.
#[global] Arguments M : clear implicits.

(** [deque.pop()]: the right end and what is left, [None] on an empty deque
    (where Python raises [IndexError]). *)
Fixpoint deque_pop {A} (d : list A) : option (list A * A) :=
  match d with
  | [] => None
  | x :: d' =>
      match deque_pop d' with
      | None => Some ([], x)
      | Some (i, y) => Some (x :: i, y)
      end
  end.

(** [deque.remove(x)]: drops the first occurrence, [None] when there is
    none (where Python raises [ValueError]). *)
Fixpoint deque_remove {A} `{EqDecision A} (x : A) (d : list A) : option (list A) :=
  match d with
  | [] => None
  | y :: d' =>
      if decide (x = y) then Some d'
      else match deque_remove x d' with
           | None => None
           | Some r => Some (y :: r)
           end
  end.

(** [dict(pairs)]: later pairs overwrite earlier ones. *)
Definition dict {K V} `{Countable K} (pairs : list (K * V)) : gmap K V :=
  foldl (fun m kv => <[kv.1 := kv.2]> m) ∅ pairs.

(** [len(x) > n] on a container of [k] entries. *)
Definition len_gt (k : nat) (n : Z) : bool := bool_decide (Z.of_nat k > n).

End Py.

Import Py.

#[global] Instance M_ret {E S} : MRet (M E S) := fun A => @Py.ret E S A.
#[global] Instance M_bind {E S} : MBind (M E S) := fun A B f m => Py.bind m f.

(** ** The decorators *)

Section Decorators.
Context {E S A : Type}.
Variable _check_expired : M E S unit.

(** [@expire]: the eviction check, then the method. *)
Definition expire (func : M E S A) : M E S A :=
  _check_expired ;; func.

(** [@expire_post]: the method, then the eviction check, then the
    method's result. *)
Definition expire_post (func : M E S A) : M E S A :=
  f ← func; _check_expired ;; ret f.
End Decorators.

(** ** LRUArray *)

Module LRUArray.
Section LRU.
Context {E : Type} `{EqDecision E}.

Record t : Type := mk {
  threadsafe : bool;
  max_length : Z;
  _items : list E
}.

Definition set_items (l : list E) (self : t) : t :=
  {| threadsafe := threadsafe self; max_length := max_length self; _items := l |}.

(** [__init__] *)
Definition init (max_length : Z) (threadsafe : bool) : t :=
  {| threadsafe := threadsafe; max_length := max_length; _items := [] |}.

Definition _check_max_length (self : t) : bool :=
  len_gt (length (_items self)) (max_length self).

Definition _remove_item : M E t unit :=
  self ← get;
  match deque_pop (_items self) with
  | None => raise IndexError
  | Some (rest, _) => modify (set_items rest)
  end.

(** The [while] loop of [_check_expired].  Every iteration that does not
    raise shortens [_items], so [fuel] = [length _items] iterations are
    enough and the last branch is never taken (lemma
    [loop_fuel_irrelevant]). *)
Fixpoint _check_expired_loop (fuel : nat) : M E t unit :=
  self ← get;
  if _check_max_length self then
    _remove_item ;;
    match fuel with
    | O => ret tt
    | S fuel' => _check_expired_loop fuel'
    end
  else ret tt.

Definition _check_expired : M E t unit :=
  self ← get; _check_expired_loop (length (_items self)).

Definition add (item : E) : M E t unit :=
  expire _check_expired (
    self ← get;
    (if decide (item ∈ _items self) then
       match deque_remove item (_items self) with
       | None => raise ValueError
       | Some r => modify (set_items r)
       end
     else ret tt) ;;
    modify (fun self => set_items (item :: _items self) self)).

Definition items : M E t (list E) :=
  expire _check_expired (gets _items).

(** [dump] returns the deque; what the caller reads off it at that
    moment is its content.  ([LRUShared.dump] returns the reference.) *)
Definition dump : M E t (list E) :=
  expire _check_expired (gets _items).

(** [load] of a sequence that is no deque, or of a deque nobody else
    holds: the content becomes the content of [_items].
    ([LRUShared.load] stores the reference of a deque it is given.) *)
Definition load (l : list E) : M E t unit :=
  expire_post _check_expired (modify (set_items l)).

(** [__len__] *)
Definition len : M E t nat :=
  l ← items; ret (length l).

Fixpoint add_iter (iterable : list E) : M E t unit :=
  match iterable with
  | [] => ret tt
  | i :: rest => add i ;; add_iter rest
  end.
End LRU.
#[global] Arguments t : clear implicits.
End LRUArray.

(** ** TTLArray and its subclass STLArray *)

Module TTLArray.

(** The class of an object decides which [_check_expired] runs and how a
    timestamp is read: [TTL] is [TTLArray] itself, [STL] the subclass
    [STLArray]. *)
Inductive class : Type := TTL | STL.

(** [timedelta.seconds] of a difference of [d] microseconds: the seconds
    within the day, in 0..86399; whole days and microseconds are separate
    attributes of a normalised [timedelta]. *)
Definition timedelta_seconds (d : Z) : Z := (d mod 86400000000) / 1000000.

(** The optional [params] part of a snapshot dictionary; a key may be
    absent. *)
Record params_dict : Type := mk_params {
  _timeout : option Z;
  _max_length : option Z;
  _retain_one : option string;
  _threadsafe : option string
}.

(** Truth value of a dictionary: it has at least one key. *)
Definition nonempty_params (p : params_dict) : bool :=
  bool_decide (is_Some (_timeout p) \/ is_Some (_max_length p) \/
               is_Some (_retain_one p) \/ is_Some (_threadsafe p)).

(** [str(b)] for a boolean. *)
Definition str_bool (b : bool) : string := if b then "True" else "False".

Section TTL.
Context {E : Type} `{Countable E}.

(** The clock: [clock n] is what the [n]-th reading returns
    ([datetime.today()] as a count of microseconds for [TTL],
    [int(time.time())] in seconds for [STL]). *)
Variable clock : nat -> Z.

(** The [json] module, restricted to what [serialize] and [deserialize]
    exchange: a list of [timestamp, element] pairs.  [json_dumps] is
    [None] on a value the encoder refuses, [json_loads] on a text that is
    not JSON.  A text that is JSON for anything else than a list of such
    pairs has no counterpart here: the source stores what it decodes to
    and fails when the check first takes a record apart. *)
Context {text : Type}.
Variable json_dumps : list (Z * E) -> option text.
Variable json_loads : text -> option (list (Z * E)).

Record t : Type := mk {
  cls : class;
  threadsafe : bool;
  max_length : Z;
  timeout : Z;
  retain_one : bool;
  _timing : list (Z * E);
  _items : gmap E Z
}.

(** The snapshot dictionary of [dump] and [load]; a key may be absent. *)
Record snapshot : Type := mk_snapshot {
  params : option params_dict;
  timing_list : option (list Z);
  item_list : option (list E)
}.

(** An object together with the number of clock readings made so far. *)
Record store : Type := mk_store {
  obj : t;
  reads : nat
}.

Definition set_timing (d : list (Z * E)) (self : t) : t :=
  {| cls := cls self; threadsafe := threadsafe self; max_length := max_length self;
     timeout := timeout self; retain_one := retain_one self;
     _timing := d; _items := _items self |}.

Definition set_items (m : gmap E Z) (self : t) : t :=
  {| cls := cls self; threadsafe := threadsafe self; max_length := max_length self;
     timeout := timeout self; retain_one := retain_one self;
     _timing := _timing self; _items := m |}.

Definition set_timeout (x : Z) (self : t) : t :=
  {| cls := cls self; threadsafe := threadsafe self; max_length := max_length self;
     timeout := x; retain_one := retain_one self;
     _timing := _timing self; _items := _items self |}.

Definition set_max_length (x : Z) (self : t) : t :=
  {| cls := cls self; threadsafe := threadsafe self; max_length := x;
     timeout := timeout self; retain_one := retain_one self;
     _timing := _timing self; _items := _items self |}.

Definition set_retain_one (x : bool) (self : t) : t :=
  {| cls := cls self; threadsafe := threadsafe self; max_length := max_length self;
     timeout := timeout self; retain_one := x;
     _timing := _timing self; _items := _items self |}.

Definition set_threadsafe (x : bool) (self : t) : t :=
  {| cls := cls self; threadsafe := x; max_length := max_length self;
     timeout := timeout self; retain_one := retain_one self;
     _timing := _timing self; _items := _items self |}.

Definition update (f : t -> t) : M E store unit :=
  modify (fun w => {| obj := f (obj w); reads := reads w |}).

(** [__init__] of either class. *)
Definition init (c : class) (timeout : Z) (retain_one : bool)
    (max_length : Z) (threadsafe : bool) : t :=
  {| cls := c; threadsafe := threadsafe; max_length := max_length;
     timeout := timeout; retain_one := retain_one;
     _timing := []; _items := ∅ |}.

Definition fresh (self : t) : store := {| obj := self; reads := 0 |}.

Definition _no_right_now : M E store Z :=
  fun w => (Return (clock (reads w)), {| obj := obj w; reads := S (reads w) |}).

Definition _check_max_length (self : t) : bool :=
  len_gt (size (_items self)) (max_length self).

Definition _check_retain_one (self : t) : bool :=
  retain_one self && bool_decide (size (_items self) = 1%nat).

Definition _remove_expired_item : M E store unit :=
  self ← gets obj;
  match deque_pop (_timing self) with
  | None => raise IndexError
  | Some (rest, (_, item)) =>
      update (set_timing rest) ;;
      if decide (is_Some (_items self !! item))
      then update (fun self => set_items (delete item (_items self)) self)
      else raise (KeyError (inr item))
  end.

(** The expiry test of [TTLArray._check_expired]. *)
Definition TTL_expired (self : t) (now date_obj : Z) : bool :=
  let elapsed_time := now - date_obj in
  bool_decide (timedelta_seconds elapsed_time > timeout self).

(** The expiry test of [STLArray._check_expired]. *)
Definition STL_expired (self : t) (now date_obj : Z) : bool :=
  let elapsed_time := now - date_obj in
  bool_decide (elapsed_time > timeout self).

Section check.
Variable expired : t -> Z -> Z -> bool.

(** [while self._check_max_length(): self._remove_expired_item()].
    Every iteration that does not raise deletes a key of [_items], so
    [fuel] = [size _items] is enough and the last branch is never
    taken (lemma [capacity_loop_fuel_irrelevant]). *)
Fixpoint capacity_loop (fuel : nat) : M E store unit :=
  self ← gets obj;
  if _check_max_length self then
    _remove_expired_item ;;
    match fuel with
    | O => ret tt
    | S fuel' => capacity_loop fuel'
    end
  else ret tt.

(** [for date_obj, _ in list(self._timing)]: the loop runs over a copy
    made before the first iteration, from the left (newest) end. *)
Fixpoint sweep (snapshot : list (Z * E)) : M E store unit :=
  match snapshot with
  | [] => ret tt
  | (date_obj, _) :: rest =>
      now ← _no_right_now;
      self ← gets obj;
      if expired self now date_obj
      then _remove_expired_item ;; sweep rest
      else ret tt
  end.

Definition _check_expired_with : M E store unit :=
  self ← gets obj;
  if _check_retain_one self then ret tt
  else
    capacity_loop (size (_items self)) ;;
    self ← gets obj;
    sweep (_timing self).
End check.

Definition _check_expired : M E store unit :=
  self ← gets obj;
  match cls self with
  | TTL => _check_expired_with TTL_expired
  | STL => _check_expired_with STL_expired
  end.

Definition add (item : E) : M E store unit :=
  expire _check_expired (
    now ← _no_right_now;
    self ← gets obj;
    match _items self !! item with
    | Some time =>
        match deque_remove (time, item) (_timing self) with
        | None => raise ValueError
        | Some rest => update (set_timing ((now, item) :: rest))
        end
    | None => update (set_timing ((now, item) :: _timing self))
    end ;;
    update (fun self => set_items (<[item := now]> (_items self)) self)).

Definition items : M E store (list E) :=
  expire _check_expired (self ← gets obj; ret ((_timing self).*2)).

Definition dump (include_params : bool) : M E store (option snapshot) :=
  expire _check_expired (
    self ← gets obj;
    match _timing self with
    | [] => ret None
    | _ =>
        let d := if include_params
                 then Some {| _timeout := Some (timeout self);
                              _max_length := Some (max_length self);
                              _retain_one := Some (str_bool (retain_one self));
                              _threadsafe := Some (str_bool (threadsafe self)) |}
                 else None in
        ret (Some {| params := d;
                     timing_list := Some ((_timing self).*1);
                     item_list := Some ((_timing self).*2) |})
    end).

(** [d[key]] on a dictionary. *)
Definition getitem {A} (key : string) (v : option A) : M E store A :=
  match v with
  | Some a => ret a
  | None => raise (KeyError (inl key))
  end.

Definition _load_lists (item_list : list E) (timing_list : list Z) : M E store unit :=
  update (set_items (dict (zip item_list timing_list))) ;;
  update (set_timing (zip timing_list item_list)).

Definition _load_params (p : params_dict) : M E store unit :=
  x ← getitem "_timeout" (_timeout p);
  update (set_timeout x) ;;
  x ← getitem "_max_length" (_max_length p);
  update (set_max_length x) ;;
  x ← getitem "_retain_one" (_retain_one p);
  update (set_retain_one (if decide (x = "True") then true else false)) ;;
  x ← getitem "_threadsafe" (_threadsafe p);
  update (set_threadsafe (if decide (x = "True") then true else false)).

(** [dictionary] is [None] for Python's [None], which cannot be
    subscripted. *)
Definition load (dictionary : option snapshot) : M E store unit :=
  expire_post _check_expired (
    match dictionary with
    | None => raise TypeError
    | Some d =>
        item_list ← getitem "item_list" (item_list d);
        timing_list ← getitem "timing_list" (timing_list d);
        _load_lists item_list timing_list ;;
        match params d with
        | Some p => if nonempty_params p then _load_params p else ret tt
        | None => ret tt
        end
    end).

Definition dump_timing_list : M E store (list (Z * E)) :=
  expire _check_expired (gets (fun w => _timing (obj w))).

Definition _rebuild_items (t : list (Z * E)) : M E store unit :=
  update (set_items (dict (prod_swap <$> t))).

Definition load_from_timing_list (t : list (Z * E)) : M E store unit :=
  expire_post _check_expired (
    update (set_timing t) ;;
    _rebuild_items t).

(** [json.dumps] refuses a [datetime], so a [TTL] object can only
    serialise an empty sequence; either refusal is a [TypeError]. *)
Definition serialize : M E store text :=
  expire _check_expired (
    self ← gets obj;
    match cls self, _timing self with
    | TTL, _ :: _ => raise TypeError
    | _, d =>
        match json_dumps d with
        | Some s => ret s
        | None => raise TypeError
        end
    end).

(** The check that [expire_post] runs for [deserialize], on the records
    [json.loads] has just produced.  [json.loads] never yields a
    [datetime]: in an [STL] object the decoded numbers are the timestamps
    themselves and the check is [_check_expired]; in a [TTL] object the
    first test of the sweep computes [datetime - int] and raises
    [TypeError], after the clock has been read. *)
Definition _check_expired_decoded : M E store unit :=
  self ← gets obj;
  match cls self with
  | STL => _check_expired
  | TTL =>
      if _check_retain_one self then ret tt
      else
        capacity_loop (size (_items self)) ;;
        self ← gets obj;
        match _timing self with
        | [] => ret tt
        | _ :: _ => _no_right_now ;; raise TypeError
        end
  end.

(** A text that [json.loads] rejects raises [JSONDecodeError], a
    [ValueError], before anything is stored. *)
Definition deserialize (s : text) : M E store unit :=
  expire_post _check_expired_decoded (
    match json_loads s with
    | Some d => update (set_timing d)
    | None => raise ValueError
    end).

(** [__len__] *)
Definition len : M E store nat :=
  l ← items; ret (length l).

Fixpoint add_iter (iterable : list E) : M E store unit :=
  match iterable with
  | [] => ret tt
  | i :: rest => add i ;; add_iter rest
  end.
End TTL.
#[global] Arguments t : clear implicits.
#[global] Arguments t E {_ _}.
#[global] Arguments store E {_ _}.
#[global] Arguments snapshot : clear implicits.
End TTLArray.

(** ** Calls on an LRUArray *)

Module LRUCalls.
Import LRUArray.
Section Calls.
Context {E : Type} `{EqDecision E}.

(** What [add] leaves of the old sequence: the sequence without the
    first occurrence of [x]. *)
Definition without (x : E) (l : list E) : list E :=
  default l (deque_remove x l).

Inductive op : Type :=
| Add (x : E)
| AddIter (l : list E)
| Items
| Dump
| Load (l : list E)
| Len.

Definition exec (o : op) : M E (t E) unit :=
  match o with
  | Add x => add x
  | AddIter l => add_iter l
  | Items => items ;; mret tt
  | Dump => dump ;; mret tt
  | Load l => load l
  | Len => len ;; mret tt
  end.

(** The object after a sequence of calls. *)
Definition exec_all (ops : list op) (self : t E) : t E :=
  foldl (fun self o => run (exec o) self) self ops.

(** A call that loads a sequence loads one without duplicates. *)
Definition loads_NoDup (o : op) : Prop :=
  match o with Load l => NoDup l | _ => True end.

End Calls.
#[global] Arguments op : clear implicits.
End LRUCalls.

(** ** LRUArray collections that share deques *)

Module LRUShared.
Section Shared.
Context {E : Type} `{EqDecision E}.

(** A reference to a deque, and to a collection: its position on the
    heap. *)
Definition ref : Type := nat.

(** An [LRUArray] object: [_items] is bound to a deque. *)
Record object : Type := mk_object {
  threadsafe : bool;
  max_length : Z;
  _items : ref
}.

Record heap : Type := mk_heap {
  deques : list (list E);
  objects : list object
}.

Definition empty : heap := {| deques := []; objects := [] |}.

(** References are handed out by [deque], [new] and [dump] only; on a
    number that names nothing the lookups below give the empty deque and
    this object. *)
#[global] Instance object_inhabited : Inhabited object :=
  populate {| threadsafe := true; max_length := 0; _items := 0%nat |}.

(** [deque(l)]: a new deque with the elements of [l]. *)
Definition deque (l : list E) : M E heap ref :=
  h ← get;
  modify (fun h => {| deques := deques h ++ [l]; objects := objects h |}) ;;
  ret (length (deques h)).

(** [LRUArray(max_length, threadsafe)]: [__init__] binds [_items] to a
    new empty deque. *)
Definition new (max_length : Z) (threadsafe : bool) : M E heap ref :=
  d ← deque [];
  h ← get;
  modify (fun h => {| deques := deques h;
                      objects := objects h ++
                        [{| threadsafe := threadsafe; max_length := max_length;
                            _items := d |}] |}) ;;
  ret (length (objects h)).

(** A method that works on the deque of [self] in place: it runs on the
    content of the deque [self._items] is bound to and leaves its result
    in that deque, whether it returns or raises. *)
Definition on_deque {A} (self : ref) (m : M E (LRUArray.t E) A) : M E heap A :=
  fun h =>
    let o := objects h !!! self in
    let '(r, s) := m (LRUArray.mk (threadsafe o) (max_length o) (deques h !!! _items o)) in
    (r, {| deques := <[_items o := LRUArray._items s]> (deques h);
           objects := objects h |}).

(** [self._items = d] *)
Definition bind_items (self : ref) (d : ref) : M E heap unit :=
  modify (fun h =>
    let o := objects h !!! self in
    {| deques := deques h;
       objects := <[self := {| threadsafe := threadsafe o;
                               max_length := max_length o;
                               _items := d |}]> (objects h) |}).

Definition _check_expired (self : ref) : M E heap unit :=
  on_deque self LRUArray._check_expired.

Definition add (self : ref) (item : E) : M E heap unit :=
  on_deque self (LRUArray.add item).

Definition items (self : ref) : M E heap (list E) :=
  on_deque self LRUArray.items.

(** [dump] returns the deque itself. *)
Definition dump (self : ref) : M E heap ref :=
  expire (_check_expired self) (gets (fun h => _items (objects h !!! self))).

(** [load]: a deque ([inl]) is kept as it is, any other sequence ([inr])
    is copied into a new deque. *)
Definition load (self : ref) (l : ref + list E) : M E heap unit :=
  expire_post (_check_expired self) (
    match l with
    | inl d => bind_items self d
    | inr l => d ← deque l; bind_items self d
    end).

(** [__len__] *)
Definition len (self : ref) : M E heap nat :=
  l ← items self; ret (length l).

Fixpoint add_iter (self : ref) (iterable : list E) : M E heap unit :=
  match iterable with
  | [] => ret tt
  | i :: rest => add self i ;; add_iter self rest
  end.

(** The calls of a program that creates collections and deques and passes
    the deques to [load]: [Load self (inl d)] with [d] a deque the program
    has built or [dump] has returned.  The program calls no method of a
    deque itself. *)
Inductive call : Type :=
| New (max_length : Z) (threadsafe : bool)
| Deque (l : list E)
| Add (self : ref) (x : E)
| AddIter (self : ref) (l : list E)
| Items (self : ref)
| Dump (self : ref)
| Load (self : ref) (l : ref + list E)
| Len (self : ref).

Definition exec (c : call) : M E heap unit :=
  match c with
  | New m ts => new m ts ;; mret tt
  | Deque l => deque l ;; mret tt
  | Add self x => add self x
  | AddIter self l => add_iter self l
  | Items self => items self ;; mret tt
  | Dump self => dump self ;; mret tt
  | Load self l => load self l
  | Len self => len self ;; mret tt
  end.

(** The heap after a sequence of calls. *)
Definition exec_all (cs : list call) (h : heap) : heap :=
  foldl (fun h c => run (exec c) h) h cs.

(** Every element a call puts in has the property [P], and no collection
    is created with a negative capacity. *)
Definition puts (P : E -> Prop) (c : call) : Prop :=
  match c with
  | New m _ => 0 <= m
  | Add _ x => P x
  | Deque l | AddIter _ l | Load _ (inr l) => Forall P l
  | _ => True
  end.

(** Every element on the heap has the property [P], and no collection
    has a negative capacity. *)
Definition holds (P : E -> Prop) (h : heap) : Prop :=
  Forall (Forall P) (deques h) /\ Forall (fun o => 0 <= max_length o) (objects h).

End Shared.
#[global] Arguments heap : clear implicits.
#[global] Arguments call : clear implicits.
End LRUShared.

(** ** Well-formed objects and calls on a TTLArray or STLArray *)

Module TTLSpec.
Import TTLArray.
Section Spec.
Context {E : Type} `{Countable E}.
Implicit Types (self : t E) (T : list (Z * E)) (w : store E).

(** The element→timestamp map that belongs to a timing sequence. *)
Definition index T : gmap E Z := list_to_map (prod_swap <$> T).

(** An object is well formed when no element has two timing records and
    the map holds exactly the timestamps of the timing sequence. *)
Definition wf self : Prop :=
  NoDup (_timing self).*2 /\ _items self = index (_timing self).

(** The well-formed object with timing sequence [T] and the parameters
    of [self]. *)
Definition with_timing T self : t E :=
  set_items (index T) (set_timing T self).

(** Same element set, same timestamps. *)
Definition consistent self : Prop :=
  forall e t, _items self !! e = Some t <-> (t, e) ∈ _timing self.

(** A store whose object is well formed and has a capacity that is not
    negative. *)
Definition Inv w : Prop := wf (obj w) /\ 0 <= max_length (obj w).

(** The capacity rule on the stored timing sequence. *)
Definition capped self : Prop :=
  Z.of_nat (length (_timing self)) <= max_length self
  \/ (retain_one self = true /\ length (_timing self) = 1%nat).

(** The timing sequence is sorted newest first: no record is newer than
    one nearer to the head. *)
Fixpoint newest_first T : bool :=
  match T with
  | [] => true
  | (t, _) :: rest => forallb (fun rec => bool_decide (rec.1 <= t)) rest && newest_first rest
  end.

(** The test the class of an object selects. *)
Definition expired_of (c : class) : t E -> Z -> Z -> bool :=
  match c with TTL => TTL_expired | STL => STL_expired end.

(** A snapshot handed to [load] lists no element twice and carries no
    negative capacity. *)
Definition snapshot_ok (dictionary : option (snapshot E)) : Prop :=
  match dictionary with
  | None => True
  | Some d =>
      (forall il, item_list d = Some il -> NoDup il)
      /\ (forall p m, params d = Some p -> _max_length p = Some m -> 0 <= m)
  end.

Variable clock : nat -> Z.

Section Check.
Variable expired : t E -> Z -> Z -> bool.

(** How many records the sweep evicts: the records of the copy are
    tested from the newest on, the [n]-th test at the [n]-th clock
    reading, and every test that succeeds evicts the oldest record
    left. *)
Fixpoint sweep_count self (r : nat) (snapshot : list (Z * E)) : nat :=
  match snapshot with
  | [] => 0
  | (date_obj, _) :: rest =>
      if expired self (clock r) date_obj
      then S (sweep_count self (S r) rest)
      else 0
  end.

(** What the check leaves of a timing sequence [T], when its first
    clock reading is the [r]-th. *)
Definition after_check self (r : nat) T : list (Z * E) :=
  if retain_one self && bool_decide (length T = 1%nat) then T
  else
    let Tc := take (Z.to_nat (max_length self)) T in
    take (length Tc - sweep_count self r Tc) Tc.

End Check.

Context {text : Type}.
Variable json_dumps : list (Z * E) -> option text.
Variable json_loads : text -> option (list (Z * E)).

Inductive op : Type :=
| Add (x : E)
| AddIter (l : list E)
| Items
| Dump (include_params : bool)
| Load (dictionary : option (snapshot E))
| DumpTimingList
| LoadFromTimingList (T : list (Z * E))
| Serialize
| Deserialize (s : text)
| Len.

Definition exec (o : op) : M E (store E) unit :=
  match o with
  | Add x => add clock x
  | AddIter l => add_iter clock l
  | Items => items clock ;; mret tt
  | Dump b => dump clock b ;; mret tt
  | Load d => load clock d
  | DumpTimingList => dump_timing_list clock ;; mret tt
  | LoadFromTimingList T => load_from_timing_list clock T
  | Serialize => serialize clock json_dumps ;; mret tt
  | Deserialize s => deserialize clock json_loads s
  | Len => len clock ;; mret tt
  end.

(** The store after a sequence of calls. *)
Definition exec_all (ops : list op) (w : store E) : store E :=
  foldl (fun w o => run (exec o) w) w ops.

(** The calls that do not restore a snapshot. *)
Definition no_restore (o : op) : Prop :=
  match o with
  | Load _ | LoadFromTimingList _ | Deserialize _ => False
  | _ => True
  end.

(** The records are sorted newest first and none is newer than the next
    clock reading. *)
Definition timely w : Prop :=
  newest_first (_timing (obj w)) = true
  /\ forall rec, rec ∈ _timing (obj w) -> rec.1 <= clock (reads w).

(** The calls the capacity rule covers: any call but [deserialize],
    loading only snapshots with distinct elements and capacities that
    are not negative. *)
Definition op_ok (o : op) : Prop :=
  match o with
  | Load d => snapshot_ok d
  | LoadFromTimingList T => NoDup T.*2
  | Deserialize _ => False
  | _ => True
  end.

End Spec.
#[global] Arguments op : clear implicits.
End TTLSpec.

(** ** A concrete instance: string elements and JSON documents *)

Module Scenario.

(** A JSON text is represented by the document it denotes; [serialize]
    only ever writes an array of two-element arrays [[int, string]].  A
    document with a record of another shape has no counterpart among the
    timing sequences: [json_loads] is [None] on it, and the statements
    below read well-shaped documents only. *)
Inductive jvalue : Type :=
| JInt (z : Z)
| JStr (s : string).

Definition document : Type := list (list jvalue).

Definition json_dumps (d : list (Z * string)) : option document :=
  Some ((fun rec => [JInt rec.1; JStr rec.2]) <$> d).

Definition record_of (j : list jvalue) : option (Z * string) :=
  match j with
  | [JInt t; JStr e] => Some (t, e)
  | _ => None
  end.

Definition json_loads (s : document) : option (list (Z * string)) :=
  mapM record_of s.

(** The clock that returns [readings] one after the other and [last] from
    then on. *)
Definition clock_of (readings : list Z) (last : Z) : nat -> Z :=
  fun n => nth n readings last.

(** Seconds as the microseconds of a [datetime]. *)
Definition seconds (n : Z) : Z := n * 1000000.

End Scenario.

(** * Properties *)

(** Unfolds the monad operations and the decorators. *)
Ltac msimpl :=
  cbv [mbind mret M_bind M_ret Py.bind Py.ret Py.get Py.gets Py.modify Py.raise
       Py.run expire expire_post] in *.

(** ** Deques *)

Section DequeFacts.
Context {A : Type}.

Lemma deque_pop_snoc (d : list A) (x : A) : deque_pop (d ++ [x]) = Some (d, x).
Proof.
  induction d as [|y d IH]; simpl; [done|].
  by rewrite IH.
Qed.

Lemma deque_pop_Some (d i : list A) (x : A) :
  deque_pop d = Some (i, x) -> d = i ++ [x].
Proof.
  revert i. induction d as [|y d IH]; intros i; simpl; [done|].
  destruct (deque_pop d) as [[i' z]|] eqn:Hd.
  - intros [= <- <-]. by rewrite (IH i').
  - intros [= <- <-]. destruct d as [|z d]; [done|].
    simpl in Hd. by destruct (deque_pop d) as [[??]|].
Qed.

Lemma deque_pop_None (d : list A) : deque_pop d = None <-> d = [].
Proof.
  destruct d as [|y d]; simpl; [done|].
  by destruct (deque_pop d) as [[??]|].
Qed.

Context `{EqDecision A}.

Lemma deque_remove_elem (x : A) (d : list A) :
  x ∈ d -> is_Some (deque_remove x d).
Proof.
  induction d as [|y d IH]; [by intros ?%elem_of_nil|].
  intros Hx. simpl. destruct (decide (x = y)); [by eexists|].
  apply elem_of_cons in Hx as [?|Hx]; [done|].
  destruct (IH Hx) as [r ->]. by eexists.
Qed.

Lemma deque_remove_length (x : A) (d r : list A) :
  deque_remove x d = Some r -> length d = S (length r).
Proof.
  revert r. induction d as [|y d IH]; intros r; simpl; [done|].
  destruct (decide (x = y)); [by intros [= ->]|].
  destruct (deque_remove x d) as [r'|]; [|done].
  intros [= <-]. simpl. by rewrite (IH r').
Qed.

Lemma deque_remove_elem_of (x y : A) (d r : list A) :
  deque_remove x d = Some r -> y ∈ r -> y ∈ d.
Proof.
  revert r. induction d as [|z d IH]; intros r; simpl; [done|].
  destruct (decide (x = z)); [intros [= ->]; set_solver|].
  destruct (deque_remove x d) as [r'|]; [|done].
  intros [= <-] [->|?]%elem_of_cons; [set_solver|].
  apply elem_of_cons. right. by apply (IH r').
Qed.

Lemma deque_remove_NoDup (x : A) (d r : list A) :
  deque_remove x d = Some r -> NoDup d -> NoDup r /\ x ∉ r.
Proof.
  revert r. induction d as [|z d IH]; intros r; simpl; [done|].
  destruct (decide (x = z)) as [->|Hne].
  - intros [= ->] [??]%NoDup_cons. done.
  - destruct (deque_remove x d) as [r'|] eqn:Hr; [|done].
    intros [= <-] [Hz Hd]%NoDup_cons.
    destruct (IH r' eq_refl Hd) as [Hnd Hx]. split.
    + apply NoDup_cons. split; [|done].
      intros ?. apply Hz. by eapply deque_remove_elem_of.
    + intros [?|?]%elem_of_cons; done.
Qed.

Lemma deque_remove_not_elem (x : A) (d : list A) :
  x ∉ d -> deque_remove x d = None.
Proof.
  induction d as [|y d IH]; [done|].
  intros [? ?]%not_elem_of_cons. simpl.
  destruct (decide (x = y)); [done|]. by rewrite IH.
Qed.

Lemma deque_remove_split (x : A) (d r : list A) :
  deque_remove x d = Some r -> exists l1 l2, d = l1 ++ x :: l2 /\ r = l1 ++ l2.
Proof.
  revert r. induction d as [|y d IH]; intros r; simpl; [done|].
  destruct (decide (x = y)) as [->|Hne].
  - intros [= ->]. by exists [], r.
  - destruct (deque_remove x d) as [r'|] eqn:Hr; [|done].
    intros [= <-]. destruct (IH r' eq_refl) as (l1 & l2 & -> & ->).
    by exists (y :: l1), l2.
Qed.

Lemma deque_remove_other (x y : A) (d r : list A) :
  deque_remove x d = Some r -> y ≠ x -> y ∈ d -> y ∈ r.
Proof.
  revert r. induction d as [|z d IH]; intros r; simpl; [done|].
  destruct (decide (x = z)) as [->|Hne].
  - intros [= ->] ? [?|?]%elem_of_cons; done.
  - destruct (deque_remove x d) as [r'|] eqn:Hr; [|done].
    intros [= <-] ? [->|?]%elem_of_cons; [set_solver|].
    apply elem_of_cons. right. by apply (IH r').
Qed.
End DequeFacts.

(** ** LRUArray *)

Module LRUFacts.
Import LRUArray LRUCalls.
Section LRU.
Context {E : Type} `{EqDecision E}.
Implicit Types (self : t E) (l : list E).

Lemma set_items_id self : set_items (_items self) self = self.
Proof. by destruct self. Qed.

(** More fuel than the length of [_items] changes nothing: the loop
    ends, by a test that fails or by an exception, before the fuel runs
    out. *)
Lemma loop_fuel_irrelevant (fuel : nat) self :
  (length (_items self) <= fuel)%nat ->
  _check_expired_loop (S fuel) self = _check_expired_loop fuel self.
Proof.
  revert self. induction fuel as [|fuel IH]; intros self Hlen.
  - destruct self as [ts m [|x l]]; simpl in *; [|lia].
    msimpl. by destruct (_check_max_length _).
  - change (_check_expired_loop (S (S fuel)) self) with
      ((s ← get; if _check_max_length s
                 then _remove_item ;; _check_expired_loop (S fuel) else mret tt) self).
    change (_check_expired_loop (S fuel) self) with
      ((s ← get; if _check_max_length s
                 then _remove_item ;; _check_expired_loop fuel else mret tt) self).
    msimpl. destruct (_check_max_length self); [|done].
    unfold _remove_item. msimpl.
    destruct (deque_pop (_items self)) as [[rest y]|] eqn:Hpop; [|done].
    apply deque_pop_Some in Hpop. apply IH. simpl.
    rewrite Hpop, length_app in Hlen. simpl in Hlen. lia.
Qed.

(** The eviction loop keeps the first [max_length] elements. *)
Lemma loop_fuel (fuel : nat) self :
  (length (_items self) <= fuel)%nat -> 0 <= max_length self ->
  _check_expired_loop fuel self
  = (Return tt, set_items (take (Z.to_nat (max_length self)) (_items self)) self).
Proof.
  revert self. induction fuel as [|fuel IH]; intros self Hlen Hmax.
  - destruct self as [ts m [|x l]]; simpl in *; [|lia].
    msimpl. unfold _check_max_length, len_gt. simpl.
    rewrite bool_decide_eq_false_2 by lia. by rewrite take_nil.
  - simpl. msimpl. unfold _check_max_length, len_gt.
    case_bool_decide as Hgt.
    + unfold _remove_item. msimpl.
      destruct (deque_pop (_items self)) as [[rest y]|] eqn:Hpop.
      * apply deque_pop_Some in Hpop.
        rewrite (IH (set_items rest self)); simpl.
        -- rewrite Hpop in Hgt |- *. rewrite length_app in Hgt. simpl in Hgt.
           rewrite take_app_le by lia. done.
        -- rewrite Hpop, length_app in Hlen. simpl in Hlen. lia.
        -- done.
      * apply deque_pop_None in Hpop. rewrite Hpop in Hgt. simpl in Hgt. lia.
    + rewrite take_ge by lia. by rewrite set_items_id.
Qed.

Lemma lru_check_expired_spec self :
  0 <= max_length self ->
  _check_expired self
  = (Return tt, set_items (take (Z.to_nat (max_length self)) (_items self)) self).
Proof. intros. unfold _check_expired. msimpl. by apply loop_fuel. Qed.

(** With a negative capacity the loop empties the deque and the next
    [pop] raises. *)
Lemma lru_check_expired_negative self :
  max_length self < 0 ->
  _check_expired self = (Raise IndexError, set_items [] self).
Proof.
  intros Hmax. unfold _check_expired. msimpl.
  remember (length (_items self)) as fuel eqn:Hfuel.
  assert (Hlen : (length (_items self) <= fuel)%nat) by lia. clear Hfuel.
  revert self Hmax Hlen. induction fuel as [|fuel IH]; intros self Hmax Hlen.
  - destruct self as [ts m [|x l]]; simpl in *; [|lia].
    msimpl. unfold _check_max_length, len_gt. simpl.
    by rewrite bool_decide_eq_true_2 by lia.
  - simpl. msimpl. unfold _check_max_length, len_gt.
    rewrite bool_decide_eq_true_2 by lia.
    unfold _remove_item. msimpl.
    destruct (deque_pop (_items self)) as [[rest y]|] eqn:Hpop.
    + apply deque_pop_Some in Hpop.
      rewrite (IH (set_items rest self)); simpl; [done|done|].
      rewrite Hpop, length_app in Hlen. simpl in Hlen. lia.
    + apply deque_pop_None in Hpop. rewrite <- Hpop. by rewrite set_items_id.
Qed.

(** A second check right after the first changes nothing. *)
Lemma lru_check_expired_idempotent self :
  0 <= max_length self ->
  (_check_expired ;; _check_expired) self = _check_expired self.
Proof.
  intros Hmax. msimpl. rewrite lru_check_expired_spec by done.
  rewrite lru_check_expired_spec by done. simpl.
  by rewrite take_take, Nat.min_id.
Qed.

Lemma without_length x l : x ∈ l -> length (x :: without x l) = length l.
Proof.
  intros [r Hr]%deque_remove_elem. unfold without. rewrite Hr. simpl.
  by rewrite (deque_remove_length _ _ _ Hr).
Qed.

Lemma without_NoDup x l : NoDup l -> NoDup (x :: without x l).
Proof.
  intros Hl. unfold without. destruct (decide (x ∈ l)) as [Hx|Hx].
  - destruct (deque_remove_elem _ _ Hx) as [r Hr]. rewrite Hr. simpl.
    destruct (deque_remove_NoDup _ _ _ Hr Hl). by apply NoDup_cons.
  - rewrite (deque_remove_not_elem _ _ Hx). simpl. by apply NoDup_cons.
Qed.

Lemma add_spec x self :
  0 <= max_length self ->
  add x self
  = (Return tt,
     set_items (x :: without x (take (Z.to_nat (max_length self)) (_items self))) self).
Proof.
  intros Hmax. unfold add. msimpl. rewrite lru_check_expired_spec by done.
  simpl. unfold without. case_decide as Hx.
  - destruct (deque_remove_elem _ _ Hx) as [r ->]. done.
  - by rewrite (deque_remove_not_elem _ _ Hx).
Qed.

Lemma items_spec self :
  0 <= max_length self ->
  items self
  = (Return (take (Z.to_nat (max_length self)) (_items self)),
     set_items (take (Z.to_nat (max_length self)) (_items self)) self).
Proof. intros Hmax. unfold items. msimpl. by rewrite lru_check_expired_spec. Qed.

Lemma dump_spec self :
  0 <= max_length self ->
  dump self
  = (Return (take (Z.to_nat (max_length self)) (_items self)),
     set_items (take (Z.to_nat (max_length self)) (_items self)) self).
Proof. apply items_spec. Qed.

Lemma load_spec l self :
  0 <= max_length self ->
  load l self
  = (Return tt, set_items (take (Z.to_nat (max_length self)) l) self).
Proof.
  intros Hmax. unfold load. msimpl.
  rewrite lru_check_expired_spec by done. by destruct self.
Qed.

Lemma len_spec self :
  0 <= max_length self ->
  len self
  = (Return (length (take (Z.to_nat (max_length self)) (_items self))),
     set_items (take (Z.to_nat (max_length self)) (_items self)) self).
Proof. intros Hmax. unfold len. msimpl. by rewrite items_spec. Qed.

(** With a capacity that is not negative no call raises, and a call
    only replaces the stored sequence; it stays duplicate-free when it
    was and when nothing with duplicates is loaded. *)
Lemma add_iter_shape l self :
  0 <= max_length self ->
  exists l', run (add_iter l) self = set_items l' self
             /\ (NoDup (_items self) -> NoDup l').
Proof.
  intros Hmax. revert self Hmax.
  induction l as [|x l IH]; intros self Hmax.
  - exists (_items self). by rewrite set_items_id.
  - unfold run. simpl. msimpl. rewrite add_spec by done.
    edestruct (IH (set_items (x :: without x
      (take (Z.to_nat (max_length self)) (_items self))) self)) as (l' & Hl' & Hnd);
      [done|].
    exists l'. split; [exact Hl'|].
    intros Hself. apply Hnd. simpl. apply without_NoDup.
    eapply sublist_NoDup; [done|apply sublist_take].
Qed.

Lemma exec_shape o self :
  0 <= max_length self ->
  exists l', run (exec o) self = set_items l' self
             /\ (loads_NoDup o -> NoDup (_items self) -> NoDup l').
Proof.
  intros Hmax.
  assert (Htake : forall l, NoDup l -> NoDup (take (Z.to_nat (max_length self)) l)).
  { intros l Hl. eapply sublist_NoDup; [done|apply sublist_take]. }
  destruct o as [x|l| | |l|]; simpl.
  - eexists. unfold run. rewrite add_spec by done. split; [done|].
    intros _ ?. apply without_NoDup. auto.
  - destruct (add_iter_shape l self Hmax) as (l' & ? & ?). eauto.
  - eexists. unfold run. msimpl. rewrite items_spec by done. split; [done|auto].
  - eexists. unfold run. msimpl. rewrite dump_spec by done. split; [done|auto].
  - eexists. unfold run. rewrite load_spec by done. split; [done|auto].
  - eexists. unfold run. msimpl. rewrite len_spec by done. split; [done|auto].
Qed.

Lemma exec_all_shape ops self :
  0 <= max_length self ->
  exists l', exec_all ops self = set_items l' self
             /\ (Forall loads_NoDup ops -> NoDup (_items self) -> NoDup l').
Proof.
  intros Hmax. revert self Hmax.
  induction ops as [|o ops IH]; intros self Hmax.
  - exists (_items self). by rewrite set_items_id.
  - simpl. destruct (exec_shape o self Hmax) as (l1 & -> & Hnd1).
    destruct (IH (set_items l1 self) Hmax) as (l2 & -> & Hnd2).
    exists l2. split; [done|].
    intros [??]%Forall_cons ?. apply Hnd2; [done|]. simpl. auto.
Qed.
End LRU.

(** C8, recency rule.  On an [LRUArray] of non-negative capacity built by
    any sequence of calls that loads only duplicate-free sequences,
    [items()] returns a duplicate-free sequence, and [add(x)] for an [x]
    in it moves [x] to the head: the next [items()] is [x] followed by the
    old sequence without [x], of the same length.  With capacity 2,
    [add("a")], [add("b")], [add("a")] leaves [items() == ["a","b"]]. *)
Theorem lru_recency_invariant :
  (forall (E : Type) `(EqDecision E) (m : Z) (ts : bool) (ops : list (op E)) (x : E),
     0 <= m -> Forall loads_NoDup ops ->
     exists l s1,
       items (exec_all ops (init m ts)) = (Return l, s1) /\ NoDup l /\
       (x ∈ l ->
        exists s2 s3,
          add x s1 = (Return tt, s2) /\
          items s2 = (Return (x :: without x l), s3) /\
          (x ∉ without x l) /\
          length (x :: without x l) = length l))
  /\ (add "a" ;; add "b" ;; add "a" ;; items) (init 2 true)
     = (Return ["a"; "b"], mk true 2 ["a"; "b"]).
Proof.
  split; [|reflexivity].
  intros E ? m ts ops x Hm Hops.
  destruct (exec_all_shape ops (init m ts) Hm) as (l0 & -> & Hnd).
  specialize (Hnd Hops (NoDup_nil_2 : NoDup (_items (init m ts)))).
  rewrite items_spec by done. simpl.
  set (l := take (Z.to_nat m) l0).
  assert (Hl : NoDup l) by (eapply sublist_NoDup; [done|apply sublist_take]).
  assert (Hlen : (length l <= Z.to_nat m)%nat) by (unfold l; rewrite length_take; lia).
  eexists _, _. split; [done|]. split; [done|].
  intros Hx. rewrite add_spec by done. simpl.
  rewrite (take_ge l) by done.
  eexists _, _. split; [done|].
  rewrite items_spec by done. simpl.
  pose proof (without_length x l Hx) as Hwl.
  rewrite (take_ge (x :: without x l)) by (rewrite Hwl; done).
  split; [done|]. split; [|done].
  by apply NoDup_cons, without_NoDup.
Qed.

Lemma lru_recency_invariant_witness :
  exists l s1,
    items (exec_all [Add "b"; Load ["a"; "b"; "c"]; Add "b"] (init 2 true))
    = (Return l, s1) /\ NoDup l /\
    ("b" ∈ l ->
     exists s2 s3,
       add "b" s1 = (Return tt, s2) /\
       items s2 = (Return ("b" :: without "b" l), s3) /\
       ("b" ∉ without "b" l) /\
       length ("b" :: without "b" l) = length l).
Proof.
  apply (proj1 lru_recency_invariant string _ 2 true
           [Add "b"; Load ["a"; "b"; "c"]; Add "b"] "b").
  - lia.
  - repeat apply Forall_cons_2; simpl; try exact I; try apply Forall_nil_2.
    apply (bool_decide_unpack _). vm_compute. reflexivity.
Defined.

(** C8 without the condition on [load]: [load] stores what it is given, so a loaded
    sequence with a repeated element is returned by [items()] as it is. *)
Lemma lru_load_keeps_duplicates :
  exists s,
    items (exec_all [Load ["a"; "a"]] (init 2 true)) = (Return ["a"; "a"], s)
    /\ ~ NoDup ["a"; "a"].
Proof.
  eexists. split; [reflexivity|].
  intros [Hin _]%NoDup_cons. apply Hin. by left.
Qed.
End LRUFacts.

(** ** TTLArray and STLArray *)

Module TTLFacts.
Import TTLArray TTLSpec.

Section Index.
Context {E : Type} `{Countable E}.
Implicit Types (T : list (Z * E)).

Lemma index_keys T : (prod_swap <$> T).*1 = T.*2.
Proof. induction T as [|[??] T IH]; [done|]. csimpl. by rewrite IH. Qed.

Lemma index_lookup T e t :
  NoDup T.*2 -> index T !! e = Some t <-> (t, e) ∈ T.
Proof.
  intros Hnd. unfold index.
  rewrite <- elem_of_list_to_map by by rewrite index_keys.
  rewrite list_elem_of_fmap. split.
  - intros ([t' e'] & [= -> ->] & ?). done.
  - intros ?. by exists (t, e).
Qed.

Lemma index_lookup_None T e : index T !! e = None <-> e ∉ T.*2.
Proof. unfold index. by rewrite <- not_elem_of_list_to_map, index_keys. Qed.

Lemma index_snoc T t e : e ∉ T.*2 -> index (T ++ [(t, e)]) = <[e := t]> (index T).
Proof.
  intros. unfold index. rewrite fmap_snoc. simpl.
  apply list_to_map_snoc. by rewrite index_keys.
Qed.

Lemma index_size T : NoDup T.*2 -> size (index T) = length T.
Proof.
  intros. unfold index. rewrite map_size_list_to_map by by rewrite index_keys.
  by rewrite length_fmap.
Qed.

Lemma dict_list_to_map (l : list (E * Z)) :
  NoDup l.*1 -> dict l = list_to_map l.
Proof.
  unfold dict. intros Hnd.
  enough (forall m0 : gmap E Z,
            foldl (fun m kv => <[kv.1 := kv.2]> m) m0 l = list_to_map l ∪ m0) as ->
    by apply (right_id_L ∅ (∪)).
  induction l as [|[k v] l IH]; intros m0; simpl.
  - by rewrite (left_id_L ∅ (∪)).
  - apply NoDup_cons in Hnd as [Hk Hnd]. rewrite IH by done.
    rewrite <- insert_union_l.
    by rewrite insert_union_r by by apply not_elem_of_list_to_map_1.
Qed.

Lemma zip_swap (tl : list Z) (il : list E) :
  prod_swap <$> zip tl il = zip il tl.
Proof.
  revert il. induction tl as [|t tl IH]; intros [|i il]; csimpl; [done..|].
  by rewrite IH.
Qed.

Lemma zip_snd_take (tl : list Z) (il : list E) :
  (zip tl il).*2 = take (length tl) il.
Proof.
  revert il. induction tl as [|t tl IH]; intros [|i il]; csimpl; [done..|].
  by rewrite IH.
Qed.

Lemma NoDup_zip_snd (tl : list Z) (il : list E) :
  NoDup il -> NoDup (zip tl il).*2.
Proof.
  intros. rewrite zip_snd_take. eapply sublist_NoDup; [done|apply sublist_take].
Qed.

(** [_load_lists] and [_rebuild_items] build the map of the timing
    sequence when no element occurs twice. *)
Lemma dict_index T : NoDup T.*2 -> dict (prod_swap <$> T) = index T.
Proof. intros. apply dict_list_to_map. by rewrite index_keys. Qed.

Lemma NoDup_take_snd T k : NoDup T.*2 -> NoDup (take k T).*2.
Proof.
  intros. rewrite fmap_take. eapply sublist_NoDup; [done|apply sublist_take].
Qed.
End Index.

Section TTL.
Context {E : Type} `{Countable E}.
Implicit Types (self : t E) (T : list (Z * E)) (w : store E).

Lemma wf_with_timing self : wf self -> self = with_timing (_timing self) self.
Proof. intros [_ Hi]. destruct self. simpl in *. by rewrite Hi. Qed.

Lemma with_timing_wf T self : NoDup T.*2 -> wf (with_timing T self).
Proof. done. Qed.

Lemma wf_size self : wf self -> size (_items self) = length (_timing self).
Proof. intros [? ->]. by apply index_size. Qed.

Lemma wf_consistent self : wf self -> consistent self.
Proof. intros [? Hi] e t. rewrite Hi. by apply index_lookup. Qed.

Ltac tsimpl :=
  simpl in *; cbv [update _check_max_length _check_retain_one] in *; msimpl;
  simpl in *.

Lemma remove_expired_item_snoc self T t e r :
  e ∉ T.*2 ->
  _remove_expired_item (mk_store (with_timing (T ++ [(t, e)]) self) r)
  = (Return tt, mk_store (with_timing T self) r).
Proof.
  intros He. unfold _remove_expired_item. tsimpl.
  rewrite deque_pop_snoc. rewrite index_snoc by done.
  rewrite lookup_insert_eq. rewrite decide_True by eauto.
  unfold with_timing, set_items, set_timing. simpl.
  rewrite index_snoc by done.
  rewrite delete_insert_id by by apply index_lookup_None.
  done.
Qed.

(** What one eviction does to the number of keys: it raises, or one key
    is gone. *)
Lemma remove_expired_item_size w :
  match _remove_expired_item w with
  | (Return _, w') => S (size (_items (obj w'))) = size (_items (obj w))
  | (Raise _, _) => True
  end.
Proof.
  unfold _remove_expired_item. tsimpl.
  destruct (deque_pop (_timing (obj w))) as [[rest [t item]]|]; [|done].
  tsimpl. case_decide as Hitem; [|done]. simpl.
  rewrite map_size_delete_Some by done.
  destruct Hitem as [v Hv].
  assert (size (_items (obj w)) ≠ 0%nat); [|lia].
  intros Hz%map_size_empty_iff. by rewrite Hz, lookup_empty in Hv.
Qed.

(** More fuel than the number of keys changes nothing: the capacity loop
    ends, by a test that fails or by an exception, before the fuel runs
    out. *)
Lemma capacity_loop_fuel_irrelevant (fuel : nat) w :
  (size (_items (obj w)) <= fuel)%nat ->
  capacity_loop (S fuel) w = capacity_loop fuel w.
Proof.
  revert w. induction fuel as [|fuel IH]; intros w Hsize.
  - simpl. tsimpl. destruct (len_gt _ _); [|done].
    pose proof (remove_expired_item_size w) as Hrm.
    destruct (_remove_expired_item w) as [[[]|e] w']; [lia|done].
  - change (capacity_loop (S (S fuel)) w) with
      ((self ← gets obj; if _check_max_length self
                         then _remove_expired_item ;; capacity_loop (S fuel)
                         else mret tt) w).
    change (capacity_loop (S fuel) w) with
      ((self ← gets obj; if _check_max_length self
                         then _remove_expired_item ;; capacity_loop fuel
                         else mret tt) w).
    tsimpl. destruct (len_gt _ _); [|done].
    pose proof (remove_expired_item_size w) as Hrm.
    destruct (_remove_expired_item w) as [[[]|e] w']; [|done].
    apply IH. lia.
Qed.

Lemma NoDup_snd_snoc T t e : NoDup (T ++ [(t, e)]).*2 -> NoDup T.*2 /\ e ∉ T.*2.
Proof.
  rewrite fmap_app. simpl. intros (? & Hd & _)%NoDup_app. split; [done|].
  intros He. apply (Hd e He). by left.
Qed.

(** The capacity loop keeps the [max_length] newest records; the fuel
    given by [_check_expired] is enough. *)
Lemma capacity_loop_fuel (fuel : nat) self T r :
  NoDup T.*2 -> (length T <= fuel)%nat -> 0 <= max_length self ->
  capacity_loop fuel (mk_store (with_timing T self) r)
  = (Return tt, mk_store (with_timing (take (Z.to_nat (max_length self)) T) self) r).
Proof.
  revert T. induction fuel as [|fuel IH]; intros T Hnd Hlen Hmax.
  - destruct T as [|? T]; simpl in Hlen; [|lia].
    tsimpl. unfold len_gt. rewrite bool_decide_eq_false_2; [by rewrite take_nil|].
    rewrite index_size by done. simpl. lia.
  - simpl. tsimpl. unfold len_gt. fold (index T).
    rewrite index_size by done.
    case_bool_decide as Hgt.
    + destruct T as [|x T'] using rev_ind; [simpl in Hgt; lia|]. clear IHT'.
      destruct x as [t e]. apply NoDup_snd_snoc in Hnd as [Hnd He].
      rewrite length_app in Hgt, Hlen. simpl in Hgt, Hlen.
      pose proof (remove_expired_item_snoc self T' t e r He) as Hrm.
      rewrite Hrm, IH by (done || lia).
      by rewrite take_app_le by lia.
    + by rewrite take_ge by lia.
Qed.

(** *** The age sweep and the whole check *)

Variable clock : nat -> Z.

Section Check.
Variable expired : t E -> Z -> Z -> bool.
Hypothesis expired_params :
  forall T self now d, expired (with_timing T self) now d = expired self now d.

Lemma sweep_count_le self r snapshot :
  (sweep_count clock expired self r snapshot <= length snapshot)%nat.
Proof.
  revert r. induction snapshot as [|[d x] rest IH]; intros r; simpl; [lia|].
  destruct (expired self (clock r) d); [|lia]. specialize (IH (S r)). lia.
Qed.

Lemma sweep_spec snapshot T self r :
  NoDup T.*2 -> (length snapshot <= length T)%nat ->
  exists r',
    sweep clock expired snapshot (mk_store (with_timing T self) r)
    = (Return tt,
       mk_store (with_timing (take (length T - sweep_count clock expired self r snapshot) T) self) r').
Proof.
  revert T r. induction snapshot as [|[d x] rest IH]; intros T r Hnd Hlen.
  - exists r. simpl. by rewrite take_ge by lia.
  - simpl. unfold _no_right_now. tsimpl. rewrite expired_params.
    destruct (expired self (clock r) d).
    + destruct T as [|[t e] T' _] using rev_ind; [simpl in Hlen; lia|].
      apply NoDup_snd_snoc in Hnd as [Hnd He].
      rewrite length_app in Hlen |- *. simpl in Hlen |- *.
      rewrite remove_expired_item_snoc by done.
      destruct (IH T' (S r) Hnd ltac:(lia)) as [r' ->]. exists r'.
      rewrite take_app_le by lia. do 4 f_equal. lia.
    + exists (S r). by rewrite take_ge by lia.
Qed.

Lemma check_expired_with_spec self T r :
  NoDup T.*2 -> 0 <= max_length self ->
  exists r',
    _check_expired_with clock expired (mk_store (with_timing T self) r)
    = (Return tt, mk_store (with_timing (after_check clock expired self r T) self) r').
Proof.
  intros Hnd Hmax. unfold _check_expired_with, after_check. tsimpl.
  fold (index T). rewrite index_size by done.
  destruct (retain_one self && bool_decide (length T = 1%nat)); [by exists r|].
  rewrite capacity_loop_fuel by done.
  apply sweep_spec; [by apply NoDup_take_snd|done].
Qed.

Lemma after_check_prefix self r T :
  exists k, after_check clock expired self r T = take k T.
Proof.
  unfold after_check.
  destruct (retain_one self && bool_decide (length T = 1%nat)).
  - exists (length T). by rewrite take_ge.
  - rewrite take_take. eauto.
Qed.

Lemma after_check_NoDup self r T : NoDup T.*2 -> NoDup (after_check clock expired self r T).*2.
Proof.
  intros. destruct (after_check_prefix self r T) as [k ->].
  by apply NoDup_take_snd.
Qed.

(** The capacity rule: at most [max_length] records are left, unless
    [retain_one] holds a single record. *)
Lemma after_check_length self r T :
  0 <= max_length self ->
  Z.of_nat (length (after_check clock expired self r T)) <= max_length self
  \/ (retain_one self = true /\ length (after_check clock expired self r T) = 1%nat).
Proof.
  intros Hmax. unfold after_check.
  destruct (retain_one self) eqn:Hr; simpl; [case_bool_decide; [by right|]|];
    left; rewrite !length_take; lia.
Qed.
End Check.

Lemma expired_of_params c T self now d :
  expired_of c (with_timing T self) now d = expired_of c self now d.
Proof. by destruct c. Qed.

Lemma check_expired_dispatch w :
  _check_expired clock w = _check_expired_with clock (expired_of (cls (obj w))) w.
Proof. unfold _check_expired. tsimpl. by destruct (cls (obj w)). Qed.

Lemma check_expired_spec self T r :
  NoDup T.*2 -> 0 <= max_length self ->
  exists r',
    _check_expired clock (mk_store (with_timing T self) r)
    = (Return tt,
       mk_store (with_timing (after_check clock (expired_of (cls self)) self r T) self) r').
Proof.
  intros. rewrite check_expired_dispatch.
  by apply check_expired_with_spec; [apply expired_of_params|..].
Qed.

(** *** Well-formedness is kept by every call *)

Lemma check_expired_inv w :
  Inv w ->
  exists w', _check_expired clock w = (Return tt, w') /\ Inv w' /\ capped (obj w').
Proof.
  intros [Hwf Hmax]. destruct w as [self r]. simpl in *.
  pose proof Hwf as [Hnd _].
  destruct (check_expired_spec self (_timing self) r Hnd Hmax) as [r' Hchk].
  rewrite <- (wf_with_timing self Hwf) in Hchk.
  eexists. split; [exact Hchk|]. simpl. split; [split; [|done]|].
  - apply with_timing_wf. by apply after_check_NoDup.
  - exact (after_check_length _ self r (_timing self) Hmax).
Qed.

Lemma index_remove_insert T rest time x now :
  NoDup T.*2 -> deque_remove (time, x) T = Some rest ->
  NoDup ((now, x) :: rest).*2
  /\ <[x := now]> (index T) = index ((now, x) :: rest).
Proof.
  intros Hnd (l1 & l2 & -> & ->)%deque_remove_split.
  rewrite fmap_app in Hnd. csimpl in Hnd.
  apply NoDup_app in Hnd as (Hl1 & Hd & [Hx Hl2]%NoDup_cons).
  assert (Hrest : NoDup (l1 ++ l2).*2).
  { rewrite fmap_app. apply NoDup_app. split_and!; [done| |done].
    intros e He ?. apply (Hd e He). by right. }
  assert (Hxrest : x ∉ (l1 ++ l2).*2).
  { rewrite fmap_app. intros [Hx1|?]%elem_of_app; [|done].
    apply (Hd x Hx1). by left. }
  split; [csimpl; by apply NoDup_cons|].
  unfold index at 2. csimpl. fold (index (l1 ++ l2)).
  apply map_eq. intros e. destruct (decide (e = x)) as [->|Hne].
  - by rewrite !lookup_insert_eq.
  - rewrite !lookup_insert_ne by done. apply option_eq. intros v.
    rewrite !index_lookup; [|done|].
    + rewrite !elem_of_app, elem_of_cons. intuition congruence.
    + rewrite fmap_app. csimpl. apply NoDup_app. split_and!; [done|done|].
      by apply NoDup_cons.
Qed.

Lemma add_inv x w : Inv w -> Inv (run (add clock x) w).
Proof.
  intros Hw. destruct (check_expired_inv w Hw) as ([self r] & Hchk & [Hwf Hmax] & _).
  unfold run, add, expire. msimpl. rewrite Hchk. unfold _no_right_now. tsimpl.
  destruct Hwf as [Hnd Hi].
  destruct (_items self !! x) as [time|] eqn:Hx.
  - rewrite Hi in Hx. pose proof Hx as Hin. apply index_lookup in Hin; [|done].
    destruct (deque_remove_elem _ _ Hin) as [rest Hrest]. rewrite Hrest. simpl.
    destruct (index_remove_insert _ _ _ _ (clock r) Hnd Hrest) as [? Hidx].
    split; [split|]; simpl; [done| |done]. by rewrite Hi.
  - simpl. rewrite Hi in Hx. apply index_lookup_None in Hx.
    split; [split|]; simpl; [by apply NoDup_cons| |done]. by rewrite Hi.
Qed.

Lemma add_returns x w : Inv w -> exists w', add clock x w = (Return tt, w').
Proof.
  intros Hw. destruct (check_expired_inv w Hw) as ([self r] & Hchk & [Hwf Hmax] & _).
  unfold add, expire. msimpl. rewrite Hchk. unfold _no_right_now. tsimpl.
  destruct Hwf as [Hnd Hi].
  destruct (_items self !! x) as [time|] eqn:Hx; [|by eexists].
  rewrite Hi in Hx. apply index_lookup in Hx; [|done].
  destruct (deque_remove_elem _ _ Hx) as [rest ->]. by eexists.
Qed.

Lemma add_iter_inv l w : Inv w -> Inv (run (add_iter clock l) w).
Proof.
  revert w. induction l as [|x l IH]; intros w Hw; [done|].
  pose proof (add_inv x w Hw) as Hw'. destruct (add_returns x w Hw) as [w' Hadd].
  unfold run in *. simpl. msimpl. rewrite Hadd in Hw' |- *. by apply IH.
Qed.

(** After [items()] the capacity rule holds for what it returned. *)
Lemma items_inv w :
  Inv w ->
  exists w', items clock w = (Return (_timing (obj w')).*2, w')
             /\ Inv w' /\ capped (obj w').
Proof.
  intros Hw. destruct (check_expired_inv w Hw) as (w' & Hchk & ? & ?).
  exists w'. unfold items, expire. msimpl. by rewrite Hchk.
Qed.

Lemma expire_inv {A} (func : M E (store E) A) w :
  Inv w -> (forall w', Inv w' -> Inv (run func w')) ->
  Inv (run (expire (_check_expired clock) func) w).
Proof.
  intros Hw Hfunc. destruct (check_expired_inv w Hw) as (w' & Hchk & Hw' & _).
  specialize (Hfunc w' Hw'). unfold run, expire in *. msimpl. by rewrite Hchk.
Qed.

Lemma expire_post_inv {A} (func : M E (store E) A) w :
  Inv (run func w) -> Inv (run (expire_post (_check_expired clock) func) w).
Proof.
  unfold run, expire_post. msimpl.
  destruct (func w) as [[a|e] w1]; simpl; [|done].
  intros Hw1. by destruct (check_expired_inv w1 Hw1) as (w' & -> & ? & _).
Qed.

Lemma dump_inv b w : Inv w -> Inv (run (dump clock b) w).
Proof.
  intros Hw. apply expire_inv; [done|]. intros w' Hw'. unfold run. tsimpl.
  by destruct (_timing (obj w')).
Qed.

Lemma dump_timing_list_inv w : Inv w -> Inv (run (dump_timing_list clock) w).
Proof. intros Hw. by apply expire_inv. Qed.

Lemma load_lists_inv il tl w :
  NoDup il -> Inv w -> Inv (run (_load_lists il tl) w).
Proof.
  intros Hil [_ Hmax]. unfold run, _load_lists. tsimpl. split; [|done].
  split; simpl; [by apply NoDup_zip_snd|].
  rewrite <- zip_swap. apply dict_index. by apply NoDup_zip_snd.
Qed.

Lemma load_params_inv p w :
  (forall m, _max_length p = Some m -> 0 <= m) ->
  Inv w -> Inv (run (_load_params p) w).
Proof.
  intros Hp [[Hnd Hi] Hmax]. unfold run, _load_params, getitem.
  destruct p as [[a|] [b|] [c|] [d|]]; tsimpl;
    (split; [by split|]); simpl; auto.
Qed.

Lemma load_inv dictionary w :
  snapshot_ok dictionary -> Inv w -> Inv (run (load clock dictionary) w).
Proof.
  intros Hd Hw. apply expire_post_inv. unfold run.
  destruct dictionary as [[p tl il]|]; [|done].
  destruct Hd as [Hil Hp]. simpl in *. unfold getitem.
  destruct il as [il|]; [|done]. destruct tl as [tl|]; [|done].
  pose proof (load_lists_inv il tl w (Hil il eq_refl) Hw) as Hw1.
  unfold run in Hw1. msimpl.
  destruct (_load_lists il tl w) as [[[]|e] w1]; simpl in *; [|done].
  destruct p as [p|]; [|done].
  destruct (nonempty_params p); [|done].
  apply (load_params_inv p w1); eauto.
Qed.

Lemma load_from_timing_list_inv T w :
  NoDup T.*2 -> Inv w -> Inv (run (load_from_timing_list clock T) w).
Proof.
  intros HT [_ Hmax]. apply expire_post_inv.
  unfold run, _rebuild_items. tsimpl. split; [|done].
  split; simpl; [done|]. by apply dict_index.
Qed.

(** *** Clock readings

    The store counts them; a call never takes one back. *)

Lemma remove_expired_item_reads w : reads (_remove_expired_item w).2 = reads w.
Proof.
  unfold _remove_expired_item. tsimpl.
  destruct (deque_pop (_timing (obj w))) as [[rest [t item]]|]; [|done].
  tsimpl. by case_decide.
Qed.

Lemma capacity_loop_reads fuel w : reads (capacity_loop fuel w).2 = reads w.
Proof.
  revert w. induction fuel as [|fuel IH]; intros w; simpl; tsimpl;
    (destruct (len_gt _ _); [|done]);
    pose proof (remove_expired_item_reads w) as Hrm;
    destruct (_remove_expired_item w) as [[[]|e] w']; simpl in *; try done.
  by rewrite IH.
Qed.

Lemma sweep_reads expired snapshot w :
  (reads w <= reads (sweep clock expired snapshot w).2)%nat.
Proof.
  revert w. induction snapshot as [|[d x] rest IH]; intros w; simpl; [done|].
  unfold _no_right_now. tsimpl. destruct (expired _ _ _); simpl; [|lia].
  set (w1 := mk_store (obj w) (S (reads w))).
  pose proof (remove_expired_item_reads w1) as Hrm.
  destruct (_remove_expired_item w1) as [[[]|e] w']; simpl in *; [|lia].
  specialize (IH w'). lia.
Qed.

Lemma check_expired_reads w : (reads w <= reads (_check_expired clock w).2)%nat.
Proof.
  rewrite check_expired_dispatch. unfold _check_expired_with. tsimpl.
  destruct (_ && _); [done|].
  pose proof (capacity_loop_reads (size (_items (obj w))) w) as Hcap.
  destruct (capacity_loop _ w) as [[[]|e] w']; simpl in *; [|lia].
  pose proof (sweep_reads (expired_of (cls (obj w))) (_timing (obj w')) w'). lia.
Qed.

(** The check leaves a prefix of the timing sequence. *)
Lemma check_expired_prefix w :
  Inv w ->
  exists w1 k,
    _check_expired clock w = (Return tt, w1) /\ Inv w1
    /\ _timing (obj w1) = take k (_timing (obj w))
    /\ (reads w <= reads w1)%nat.
Proof.
  intros [Hwf Hmax]. pose proof (check_expired_reads w) as Hreads.
  destruct w as [self r]. simpl in *. pose proof Hwf as [Hnd _].
  destruct (check_expired_spec self (_timing self) r Hnd Hmax) as [r' Hchk].
  rewrite <- (wf_with_timing self Hwf) in Hchk. rewrite Hchk in Hreads.
  destruct (after_check_prefix (expired_of (cls self)) self r (_timing self))
    as [k Hk].
  eexists _, k. split; [exact Hchk|]. simpl in *.
  split; [split; [apply with_timing_wf; by apply after_check_NoDup|done]|].
  by split.
Qed.

(** *** A second check changes nothing: STL, sorted records, no time
    passing *)

Lemma newest_first_take k T : newest_first T = true -> newest_first (take k T) = true.
Proof.
  revert k. induction T as [|[t x] T IH]; intros [|k] Hs; simpl in *; try done.
  apply andb_true_iff in Hs as [Hall Hs]. apply andb_true_iff. split; [|by apply IH].
  rewrite forallb_forall in Hall |- *. intros rec Hin. apply Hall.
  apply list_elem_of_In. apply list_elem_of_In in Hin.
  apply elem_of_take in Hin as (i & Hi & _). by eapply list_elem_of_lookup_2.
Qed.

Section Still.
(** From the [r0]-th reading on the clock stands still at [now]. *)
Variable now : Z.
Variable r0 : nat.
Hypothesis clock_still : forall n, (r0 <= n)%nat -> clock n = now.

Lemma sweep_count_all self r T :
  (r0 <= r)%nat ->
  (forall rec, rec ∈ T -> STL_expired self now rec.1 = true) ->
  sweep_count clock STL_expired self r T = length T.
Proof.
  revert r. induction T as [|[t x] T IH]; intros r Hr Hall; simpl; [done|].
  pose proof (Hall (t, x) ltac:(by left)) as Ht. simpl in Ht.
  rewrite clock_still, Ht by done.
  rewrite IH; [done|lia|]. intros rec ?. apply Hall. by right.
Qed.

(** On sorted records the sweep evicts all or nothing. *)
Lemma sweep_count_sorted self r T :
  (r0 <= r)%nat -> newest_first T = true ->
  match T with
  | [] => sweep_count clock STL_expired self r T = 0%nat
  | (t, _) :: _ =>
      sweep_count clock STL_expired self r T
      = if STL_expired self now t then length T else 0%nat
  end.
Proof.
  destruct T as [|[t x] T]; [done|]. intros Hr Hs.
  destruct (STL_expired self now t) eqn:Ht.
  - apply sweep_count_all; [done|]. simpl in Hs.
    apply andb_true_iff in Hs as [Hall _]. rewrite forallb_forall in Hall.
    intros rec [->|Hin]%elem_of_cons; [done|].
    apply list_elem_of_In, Hall, bool_decide_eq_true in Hin.
    unfold STL_expired in *. apply bool_decide_eq_true in Ht.
    apply bool_decide_eq_true. lia.
  - simpl. by rewrite clock_still, Ht.
Qed.

Lemma after_check_idempotent self r r' T :
  (r0 <= r)%nat -> (r0 <= r')%nat ->
  0 <= max_length self -> newest_first T = true ->
  after_check clock STL_expired self r' (after_check clock STL_expired self r T)
  = after_check clock STL_expired self r T.
Proof.
  intros Hr0 Hr0' Hmax Hs.
  remember (after_check clock STL_expired self r T) as A eqn:HA.
  unfold after_check in HA.
  destruct (retain_one self && bool_decide (length T = 1%nat)) eqn:Hr.
  { subst A. unfold after_check. by rewrite Hr. }
  assert (Hsc : newest_first (take (Z.to_nat (max_length self)) T) = true)
    by by apply newest_first_take.
  assert (HTc : (length (take (Z.to_nat (max_length self)) T)
                 <= Z.to_nat (max_length self))%nat)
    by (rewrite length_take; lia).
  generalize dependent (take (Z.to_nat (max_length self)) T). intros Tc HA Hsc HTc.
  pose proof (sweep_count_sorted self r Tc Hr0 Hsc) as Hcount.
  pose proof (sweep_count_sorted self r' Tc Hr0' Hsc) as Hcount'.
  assert (Hnil : after_check clock STL_expired self r' [] = []).
  { unfold after_check. simpl. rewrite andb_false_r. by rewrite take_nil. }
  destruct Tc as [|[t x] Tc'].
  { rewrite take_nil in HA. by subst A. }
  rewrite Hcount in HA. destruct (STL_expired self now t) eqn:Ht.
  - rewrite Nat.sub_diag, take_0 in HA. by subst A.
  - rewrite Nat.sub_0_r, firstn_all in HA. subst A. unfold after_check.
    destruct (retain_one self && bool_decide (length ((t, x) :: Tc') = 1%nat));
      [done|].
    rewrite (take_ge ((t, x) :: Tc')) by done.
    rewrite Hcount'. by rewrite Nat.sub_0_r, firstn_all.
Qed.

(** A second [_check_expired] right after the first leaves the object
    as it is. *)
Lemma check_expired_idempotent w :
  (r0 <= reads w)%nat ->
  cls (obj w) = STL -> Inv w -> newest_first (_timing (obj w)) = true ->
  exists w1 w2,
    _check_expired clock w = (Return tt, w1)
    /\ _check_expired clock w1 = (Return tt, w2)
    /\ obj w2 = obj w1 /\ Inv w1 /\ cls (obj w1) = cls (obj w)
    /\ (reads w <= reads w1)%nat.
Proof.
  intros Hr0 Hcls [Hwf Hmax] Hs. pose proof (check_expired_reads w) as Hreads.
  destruct w as [self r]. simpl in *.
  pose proof Hwf as [Hnd _].
  destruct (check_expired_spec self (_timing self) r Hnd Hmax) as [r1 Hchk].
  rewrite <- (wf_with_timing self Hwf) in Hchk. rewrite Hchk in Hreads.
  rewrite Hcls in Hchk. simpl in Hchk, Hreads.
  set (A := after_check clock STL_expired self r (_timing self)) in *.
  assert (HA : NoDup A.*2) by by apply after_check_NoDup.
  destruct (check_expired_spec self A r1 HA Hmax) as [r2 Hchk2].
  rewrite Hcls in Hchk2. simpl in Hchk2.
  unfold A in Hchk2 at 2.
  rewrite after_check_idempotent in Hchk2 by (done || lia).
  eexists _, _. split; [exact Hchk|]. split; [exact Hchk2|].
  split; [done|]. split; [|done]. split; [by apply with_timing_wf|done].
Qed.
End Still.

Context {text : Type}.
Variable json_dumps : list (Z * E) -> option text.
Variable json_loads : text -> option (list (Z * E)).

Lemma serialize_inv w : Inv w -> Inv (run (serialize clock json_dumps) w).
Proof.
  intros Hw. apply expire_inv; [done|]. intros w' Hw'. unfold run. tsimpl.
  destruct (cls (obj w')), (_timing (obj w')); try done;
    by destruct (json_dumps _).
Qed.

Lemma len_inv w :
  Inv w ->
  exists n w',
    len clock w = (Return n, w') /\ Inv w' /\
    (Z.of_nat n <= max_length (obj w')
     \/ (retain_one (obj w') = true /\ n = 1%nat)).
Proof.
  intros Hw. destruct (items_inv w Hw) as (w' & Hitems & Hw' & Hcap).
  exists (length (_timing (obj w'))), w'. unfold len. msimpl.
  rewrite Hitems. by rewrite length_fmap.
Qed.

Lemma run_discard {A} (m : M E (store E) A) w : run (m ;; mret tt) w = run m w.
Proof. unfold run. msimpl. by destruct (m w) as [[a|e] w']. Qed.

Lemma exec_inv o w : op_ok o -> Inv w -> Inv (run (exec clock json_dumps json_loads o) w).
Proof.
  intros Ho Hw. destruct o; simpl in *; rewrite ?run_discard.
  - by apply add_inv.
  - by apply add_iter_inv.
  - destruct (items_inv w Hw) as (w' & Hi & ? & _). unfold run. by rewrite Hi.
  - by apply dump_inv.
  - by apply load_inv.
  - by apply dump_timing_list_inv.
  - by apply load_from_timing_list_inv.
  - by apply serialize_inv.
  - done.
  - destruct (len_inv w Hw) as (n & w' & Hl & ? & _). unfold run. by rewrite Hl.
Qed.

Lemma exec_all_inv ops w : Forall op_ok ops -> Inv w -> Inv (exec_all clock json_dumps json_loads ops w).
Proof.
  intros Hops. revert w. induction Hops as [|o ops Ho _ IH]; intros w Hw; [done|].
  simpl. apply IH. by apply exec_inv.
Qed.

(** *** Collections filled by [add] are sorted *)

Lemma newest_first_remove T rest rec :
  deque_remove rec T = Some rest -> newest_first T = true -> newest_first rest = true.
Proof.
  intros (l1 & l2 & -> & ->)%deque_remove_split.
  induction l1 as [|[t x] l1 IH]; simpl.
  - destruct rec. by intros [_ ?]%andb_true_iff.
  - intros [Hall Hs]%andb_true_iff. apply andb_true_iff. split; [|by apply IH].
    rewrite forallb_app in Hall |- *. simpl in Hall.
    apply andb_true_iff in Hall as [? [_ ?]%andb_true_iff]. by apply andb_true_iff.
Qed.

Section Monotone.
Hypothesis clock_mono : forall n m, (n <= m)%nat -> clock n <= clock m.

Lemma timely_prefix w w1 k :
  timely clock w -> _timing (obj w1) = take k (_timing (obj w)) ->
  (reads w <= reads w1)%nat -> timely clock w1.
Proof.
  intros [Hs Hb] HT Hr. split; rewrite HT.
  - by apply newest_first_take.
  - intros rec (i & Hi & _)%elem_of_take.
    pose proof (clock_mono _ _ Hr). apply list_elem_of_lookup_2, Hb in Hi. lia.
Qed.

Lemma add_timely x w : Inv w -> timely clock w -> timely clock (run (add clock x) w).
Proof.
  intros Hw Hwt.
  destruct (check_expired_prefix w Hw) as ([self r] & k & Hchk & [Hwf _] & HT & Hr).
  pose proof (timely_prefix w _ k Hwt HT Hr) as [Hs Hb]. simpl in *.
  pose proof (clock_mono r (S r) ltac:(lia)) as Hstep.
  unfold run, add, expire. msimpl. rewrite Hchk. unfold _no_right_now. tsimpl.
  assert (Hall : forall l, (forall rec, rec ∈ l -> rec ∈ _timing self) ->
            forallb (fun rec => bool_decide (rec.1 <= clock r)) l = true).
  { intros l Hl. apply forallb_forall. intros rec Hin%list_elem_of_In.
    apply bool_decide_eq_true. auto. }
  assert (Hnew : forall l, (forall rec, rec ∈ l -> rec ∈ _timing self) ->
            forall rec, rec ∈ (clock r, x) :: l -> rec.1 <= clock (S r)).
  { intros l Hl rec [->|Hin]%elem_of_cons; [done|].
    specialize (Hb rec (Hl rec Hin)). lia. }
  destruct (_items self !! x) as [time|] eqn:Hx.
  - destruct Hwf as [Hnd Hi]. rewrite Hi in Hx. apply index_lookup in Hx; [|done].
    destruct (deque_remove_elem _ _ Hx) as [rest Hrest]. rewrite Hrest. simpl.
    assert (Hsub : forall rec, rec ∈ rest -> rec ∈ _timing self)
      by (intros rec; by eapply deque_remove_elem_of).
    split; simpl; [|by apply Hnew].
    apply andb_true_iff. split; [by apply Hall|by eapply newest_first_remove].
  - simpl. split; simpl; [|by apply Hnew].
    apply andb_true_iff. split; [by apply Hall|done].
Qed.

Lemma add_iter_timely l w :
  Inv w -> timely clock w ->
  timely clock (run (add_iter clock l) w).
Proof.
  revert w. induction l as [|x l IH]; intros w Hw Hwt; [done|].
  pose proof (add_inv x w Hw) as Hw'. pose proof (add_timely x w Hw Hwt) as Hwt'.
  destruct (add_returns x w Hw) as [w' Hadd].
  unfold run in *. simpl. msimpl. rewrite Hadd in Hw', Hwt' |- *. by apply IH.
Qed.

Lemma expire_readonly {A} (func : M E (store E) A) w w1 :
  _check_expired clock w = (Return tt, w1) ->
  (forall w', run func w' = w') ->
  run (expire (_check_expired clock) func) w = w1.
Proof.
  intros Hchk Hfunc. specialize (Hfunc w1). unfold run, expire in *. msimpl.
  by rewrite Hchk.
Qed.

Lemma no_restore_ok (o : op E text) : no_restore o -> op_ok o.
Proof. by destruct o. Qed.

Lemma exec_timely o w :
  no_restore o -> Inv w -> timely clock w ->
  timely clock (run (exec clock json_dumps json_loads o) w).
Proof.
  intros Ho Hw Hwt.
  destruct (check_expired_prefix w Hw) as (w1 & k & Hchk & _ & HT & Hr).
  pose proof (timely_prefix w w1 k Hwt HT Hr) as Hwt1.
  destruct o; simpl in *; rewrite ?run_discard; try done.
  - by apply add_timely.
  - by apply add_iter_timely.
  - unfold items. by rewrite (expire_readonly _ w w1).
  - unfold dump. rewrite (expire_readonly _ w w1); [done|done|].
    intros w'. unfold run. tsimpl. by destruct (_timing (obj w')).
  - unfold dump_timing_list. by rewrite (expire_readonly _ w w1).
  - unfold serialize. rewrite (expire_readonly _ w w1); [done|done|].
    intros w'. unfold run. tsimpl.
    destruct (cls (obj w')), (_timing (obj w')); try done;
      by destruct (json_dumps _).
  - unfold run, len, items, expire. msimpl. by rewrite Hchk.
Qed.

(** Calls that do not restore a snapshot keep the collection well formed
    and sorted. *)
Lemma exec_all_timely ops w :
  Forall no_restore ops -> Inv w -> timely clock w ->
  Inv (exec_all clock json_dumps json_loads ops w)
  /\ timely clock (exec_all clock json_dumps json_loads ops w).
Proof.
  intros Hops. revert w.
  induction Hops as [|o ops Ho _ IH]; intros w Hw Hwt; [done|].
  simpl. apply IH; [apply exec_inv; [by apply no_restore_ok|done]|].
  by apply exec_timely.
Qed.

(** In particular a collection filled from a new instance meets the
    conditions of the round trip. *)
Lemma new_instance_calls_sorted c to ro m ts ops :
  0 <= m -> Forall no_restore ops ->
  let w := exec_all clock json_dumps json_loads ops (fresh (init c to ro m ts)) in
  Inv w /\ newest_first (_timing (obj w)) = true.
Proof.
  intros Hm Hops.
  destruct (exec_all_timely ops (fresh (init c to ro m ts)) Hops) as [? [? _]].
  - split; [|done]. split; [apply NoDup_nil_2|done].
  - split; [done|]. by intros rec ?%elem_of_nil.
  - done.
Qed.
End Monotone.

(** *** Snapshots *)

Lemma set_timing_id self : set_timing (_timing self) self = self.
Proof. by destruct self. Qed.

(** C6.  [load] on a dictionary without [item_list] or without
    [timing_list] raises a [KeyError] that names the missing key, and the
    store is the one it was called with: nothing was loaded, nothing was
    evicted, the clock was not read. *)
Theorem load_missing_field_raises w (d : snapshot E) :
  item_list d = None \/ timing_list d = None ->
  exists field,
    (field = "item_list" /\ item_list d = None
     \/ field = "timing_list" /\ timing_list d = None)
    /\ load clock (Some d) w = (Raise (KeyError (inl field)), w).
Proof.
  destruct d as [p tl il]. simpl. intros Hd.
  destruct il as [il|].
  - destruct tl as [tl|]; [by destruct Hd|].
    exists "timing_list". split; [by right|done].
  - exists "item_list". split; [by left|done].
Qed.

(** With [retain_one] and a single key in the map the check returns at
    once: nothing is evicted and the clock is not read, whatever the age
    of the record and whatever the capacity. *)
Lemma retain_one_suspends_check w :
  retain_one (obj w) = true -> size (_items (obj w)) = 1%nat ->
  _check_expired clock w = (Return tt, w).
Proof.
  intros Hr Hsize. unfold _check_expired, _check_expired_with. tsimpl.
  destruct (cls (obj w)); tsimpl; by rewrite Hr, Hsize.
Qed.

(** On an empty collection the check does nothing at all. *)
Lemma check_expired_empty w :
  _timing (obj w) = [] -> _items (obj w) = ∅ -> 0 <= max_length (obj w) ->
  _check_expired clock w = (Return tt, w).
Proof.
  destruct w as [[c ts m to ro T I] r]. simpl. intros -> -> Hm.
  unfold _check_expired, _check_expired_with.
  destruct c; tsimpl; rewrite andb_false_r, map_size_empty; tsimpl;
    unfold len_gt; rewrite map_size_empty;
    by rewrite bool_decide_eq_false_2 by lia.
Qed.

(** C10.  On an empty collection [dump], with or without
    [include_params], returns [None] and changes nothing; [load] of that
    value raises [TypeError] instead of restoring an empty collection. *)
Theorem dump_of_empty_is_None (include_params : bool) w :
  _timing (obj w) = [] -> _items (obj w) = ∅ -> 0 <= max_length (obj w) ->
  exists v w',
    dump clock include_params w = (Return v, w')
    /\ v = None /\ w' = w
    /\ load clock v w' = (Raise TypeError, w').
Proof.
  intros HT HI Hm. exists None, w.
  unfold dump, load, expire, expire_post. msimpl.
  rewrite check_expired_empty by done. simpl. by rewrite HT.
Qed.

(** *** The text encoding *)

(** In an STL object the check after [deserialize] is the check of every
    other call. *)
Lemma check_expired_decoded_STL w :
  cls (obj w) = STL -> _check_expired_decoded clock w = _check_expired clock w.
Proof.
  intros Hcls. unfold _check_expired_decoded. msimpl. by rewrite Hcls.
Qed.

Section RoundTrip.
(** From the [r0]-th reading on the clock stands still at [now]. *)
Variable now : Z.
Variable r0 : nat.
Hypothesis clock_still : forall n, (r0 <= n)%nat -> clock n = now.
(** The elements are JSON-representable: what is written is read back
    as it was. *)
Hypothesis json_representable : forall d, json_dumps d ≫= json_loads = Some d.

(** The text read back by the collection that wrote it.  On a
    well-formed STL collection with sorted records and a capacity that is
    not negative, with no time passing from the call of [serialize] on,
    [serialize] returns a text and [deserialize] of that text on the same
    collection leaves the timing sequence that was serialised; the map,
    which [deserialize] does not touch, is the writer's own. *)
Lemma stl_serialize_roundtrip w :
  (r0 <= reads w)%nat ->
  cls (obj w) = STL -> Inv w -> newest_first (_timing (obj w)) = true ->
  exists s w1 w2,
    serialize clock json_dumps w = (Return s, w1)
    /\ json_loads s = Some (_timing (obj w1))
    /\ deserialize clock json_loads s w1 = (Return tt, w2)
    /\ _timing (obj w2) = _timing (obj w1)
    /\ _items (obj w2) = _items (obj w1).
Proof.
  intros Hr0 Hcls Hw Hs.
  destruct (check_expired_idempotent now r0 clock_still w Hr0 Hcls Hw Hs)
    as (w1 & w2 & Hchk1 & Hchk2 & Hobj & _ & Hcls1 & _).
  rewrite Hcls in Hcls1.
  pose proof (json_representable (_timing (obj w1))) as Hjson.
  destruct (json_dumps (_timing (obj w1))) as [s|] eqn:Hdumps; [|done].
  simpl in Hjson. exists s, w1, w2.
  assert (Hser : serialize clock json_dumps w = (Return s, w1)).
  { unfold serialize, expire. msimpl. rewrite Hchk1. simpl.
    by rewrite Hcls1, Hdumps. }
  assert (Hdes : deserialize clock json_loads s w1 = (Return tt, w2)).
  { unfold deserialize, expire_post. tsimpl. rewrite Hjson. simpl.
    rewrite set_timing_id. destruct w1 as [self1 r1]. simpl in *.
    rewrite check_expired_decoded_STL by done.
    by rewrite Hchk2. }
  by rewrite Hobj.
Qed.

(** What the check leaves on sorted records when [retain_one] is off:
    nothing, or a sequence whose newest record is not expired. *)
Lemma after_check_head self r T :
  (r0 <= r)%nat -> retain_one self = false -> newest_first T = true ->
  match after_check clock STL_expired self r T with
  | [] => True
  | (t, _) :: _ => STL_expired self now t = false
  end.
Proof.
  intros Hr0 Hr Hs. unfold after_check. rewrite Hr. simpl.
  assert (Hsc : newest_first (take (Z.to_nat (max_length self)) T) = true)
    by by apply newest_first_take.
  generalize dependent (take (Z.to_nat (max_length self)) T). intros Tc Hsc.
  pose proof (sweep_count_sorted now r0 clock_still self r Tc Hr0 Hsc) as Hcount.
  destruct Tc as [|[t x] Tc']; [by rewrite take_nil|].
  rewrite Hcount. destruct (STL_expired self now t) eqn:Ht.
  - by rewrite Nat.sub_diag, take_0.
  - by rewrite Nat.sub_0_r, firstn_all.
Qed.

(** The same text read into another STL collection with an empty map (a
    new instance) and the same timeout, when the writer has [retain_one]
    off: the timing sequence is the one that was serialised.  The map of
    the reader stays empty and its capacity is not applied. *)
Lemma stl_deserialize_on_new_instance w y :
  (r0 <= reads w)%nat -> (r0 <= reads y)%nat ->
  cls (obj w) = STL -> Inv w -> newest_first (_timing (obj w)) = true ->
  retain_one (obj w) = false ->
  cls (obj y) = STL -> _items (obj y) = ∅ ->
  timeout (obj y) = timeout (obj w) -> 0 <= max_length (obj y) ->
  exists s w1 y1,
    serialize clock json_dumps w = (Return s, w1)
    /\ deserialize clock json_loads s y = (Return tt, y1)
    /\ _timing (obj y1) = _timing (obj w1)
    /\ _items (obj y1) = ∅.
Proof.
  intros Hr0 Hr0y Hcls [Hwf Hmax] Hs Hr Hcy Hiy Hto Hmy.
  destruct w as [self r]. simpl in *. pose proof Hwf as [Hnd _].
  destruct (check_expired_spec self (_timing self) r Hnd Hmax) as [r1 Hchk].
  rewrite <- (wf_with_timing self Hwf) in Hchk. rewrite Hcls in Hchk. simpl in Hchk.
  pose proof (after_check_head self r (_timing self) Hr0 Hr Hs) as Hhead.
  set (A := after_check clock STL_expired self r (_timing self)) in *.
  pose proof (json_representable A) as Hjson.
  destruct (json_dumps A) as [s|] eqn:Hdumps; [|done]. simpl in Hjson.
  exists s, (mk_store (with_timing A self) r1).
  assert (Hser : serialize clock json_dumps (mk_store self r)
                 = (Return s, mk_store (with_timing A self) r1)).
  { unfold serialize, expire. msimpl. rewrite Hchk. simpl.
    by rewrite Hcls, Hdumps. }
  enough (exists y1, deserialize clock json_loads s y = (Return tt, y1)
                     /\ _timing (obj y1) = A /\ _items (obj y1) = ∅)
    as (y1 & ? & ? & ?) by (exists y1; by split_and!).
  destruct y as [[c ts m to ro Ty Iy] ry]. simpl in *. subst c Iy to.
  unfold deserialize, expire_post, _check_expired_decoded, _check_expired,
    _check_expired_with.
  tsimpl. rewrite Hjson. tsimpl. rewrite andb_false_r, map_size_empty. tsimpl.
  unfold len_gt. rewrite map_size_empty.
  rewrite bool_decide_eq_false_2 by lia.
  destruct A as [|[t x] A']; simpl.
  - eexists. by split_and!.
  - unfold _no_right_now. tsimpl. rewrite clock_still by done.
    unfold STL_expired in *. simpl in *. rewrite Hhead.
    eexists. by split_and!.
Qed.
End RoundTrip.
End TTL.

(** *** Scenarios on string elements *)

Import Scenario.

Lemma json_loads_dumps d : json_dumps d ≫= json_loads = Some d.
Proof.
  unfold json_dumps, json_loads. simpl. apply mapM_Some.
  induction d as [|[t e] d IH]; constructor; done.
Qed.

Lemma load_missing_field_raises_witness :
  exists field,
    (field = "item_list" /\ (None : option (list string)) = None
     \/ field = "timing_list" /\ Some [1] = None)
    /\ load (fun _ => 0) (Some (@mk_snapshot string None (Some [1]) None))
         (fresh (init (E:=string) STL 60 false 100 true))
       = (Raise (KeyError (inl field)), fresh (init (E:=string) STL 60 false 100 true)).
Proof.
  apply (load_missing_field_raises (fun _ => 0) (fresh (init (E:=string) STL 60 false 100 true))
           (@mk_snapshot string None (Some [1]) None)).
  left. reflexivity.
Defined.

Lemma dump_of_empty_is_None_witness :
  exists v w',
    dump (fun _ => 0) true (fresh (init (E:=string) TTL 60 false 100 true)) = (Return v, w')
    /\ v = None /\ w' = fresh (init (E:=string) TTL 60 false 100 true)
    /\ load (fun _ => 0) v w' = (Raise TypeError, w').
Proof.
  apply (dump_of_empty_is_None (fun _ => 0) true (fresh (init (E:=string) TTL 60 false 100 true)));
    [reflexivity|reflexivity|simpl; lia].
Defined.

Lemma stl_serialize_roundtrip_witness :
  let clock := clock_of [0; 5; 5] 7 in
  let w := run (add clock "a" ;; add clock "b")
             (fresh (init (E:=string) STL 10 false 100 true)) in
  exists s w1 w2,
    serialize clock json_dumps w = (Return s, w1)
    /\ json_loads s = Some (_timing (obj w1))
    /\ deserialize clock json_loads s w1 = (Return tt, w2)
    /\ _timing (obj w2) = _timing (obj w1)
    /\ _items (obj w2) = _items (obj w1).
Proof.
  apply (stl_serialize_roundtrip (clock_of [0; 5; 5] 7) json_dumps json_loads 7 3).
  - intros n Hn. unfold clock_of.
    do 3 (destruct n as [|n]; [lia|]). by destruct n.
  - exact json_loads_dumps.
  - vm_compute. lia.
  - reflexivity.
  - split; [split|].
    + apply (bool_decide_unpack _). vm_compute. reflexivity.
    + vm_compute. reflexivity.
    + vm_compute. discriminate.
  - reflexivity.
Defined.

(** C1.  STL, timeout 10, capacity 100: [add("a")] at time 0, [add("b")]
    at time 5, [items()] at time 12.  The sweep tests the newest record
    ("b", 7 seconds old), stops there, and "a", 12 seconds old, is still
    returned.  (Clock readings: the timestamp of "a"; the sweep and the
    timestamp of the second [add]; the sweep of [items].) *)
Theorem sweep_keeps_stale_record :
  let clock := clock_of [0; 5; 5] 12 in
  exists w,
    (add clock "a" ;; add clock "b" ;; items clock) (fresh (init (E:=string) STL 10 false 100 true))
    = (Return ["b"; "a"], w)
    /\ _timing (obj w) = [(5, "b"); (0, "a")]
    /\ STL_expired (obj w) 12 0 = true
    /\ 12 - 0 > timeout (obj w)
    /\ _check_retain_one (obj w) = false.
Proof. eexists. split; [vm_compute; reflexivity|]. by vm_compute. Qed.

(** C2.  [deserialize] on a new STL collection: the timing sequence holds
    the record, the map stays empty.  [load_from_timing_list] on the same
    record rebuilds the map. *)
Theorem deserialize_leaves_map_stale :
  let clock := fun _ : nat => 5 in
  let w0 := fresh (init (E:=string) STL 60 false 100 true) in
  exists w w',
    deserialize clock json_loads [[JInt 5; JStr "a"]] w0 = (Return tt, w)
    /\ _timing (obj w) = [(5, "a")]
    /\ _items (obj w) = ∅
    /\ ~ consistent (obj w)
    /\ load_from_timing_list clock [(5, "a")] w0 = (Return tt, w')
    /\ _timing (obj w') = [(5, "a")]
    /\ _items (obj w') = {[ "a" := 5 ]}.
Proof.
  eexists _, _. split; [vm_compute; reflexivity|]. simpl.
  split; [done|]. split; [done|]. split.
  - intros Hc. specialize (Hc "a" 5). simpl in Hc.
    assert (Hin : (5, "a") ∈ [(5, "a")]) by by left.
    apply Hc in Hin. by vm_compute in Hin.
  - split; [vm_compute; reflexivity|]. done.
Qed.

(** C7.  STL with [retain_one], timeout 10: [add("a")] at time 0.  At
    time 20 [serialize()] returns the text of the one record, which
    [retain_one] has kept, and [deserialize] of that text on a new
    collection with the same parameters, still at time 20, raises
    [KeyError] and leaves the reader empty: its map is empty, so
    [retain_one] does not hold the record back, the record is expired and
    popped, and its element is not in the map.  [dump_timing_list] and
    [load_from_timing_list], which rebuilds the map, carry the same record
    over at the same times.  (The reader is created when the writer has
    read the clock once, so its first reading is the next one, at time
    20.) *)
Theorem stl_text_roundtrip_loses_record :
  let clock := clock_of [0] 20 in
  let new := init (E:=string) STL 10 true 100 true in
  exists s w1 y1 T w2 y2,
    (add clock "a" ;; serialize clock json_dumps) (fresh new) = (Return s, w1)
    /\ s = [[JInt 0; JStr "a"]]
    /\ _timing (obj w1) = [(0, "a")]
    /\ clock (reads w1) = 20
    /\ deserialize clock json_loads s (mk_store new (reads w1))
       = (Raise (KeyError (inr "a")), y1)
    /\ _timing (obj y1) = []
    /\ (add clock "a" ;; dump_timing_list clock) (fresh new) = (Return T, w2)
    /\ T = [(0, "a")]
    /\ load_from_timing_list clock T (mk_store new (reads w2)) = (Return tt, y2)
    /\ _timing (obj y2) = [(0, "a")].
Proof.
  eexists _, _, _, _, _, _.
  split; [vm_compute; reflexivity|]. split; [reflexivity|].
  split; [reflexivity|]. split; [reflexivity|].
  split; [vm_compute; reflexivity|]. split; [reflexivity|].
  split; [vm_compute; reflexivity|]. split; [reflexivity|].
  split; [vm_compute; reflexivity|]. reflexivity.
Qed.

(** C4.  STL with [retain_one], timeout 10: [add("a")] at time 0,
    [add("b")] at time 1, [items()] at time 100.  The collection holds two
    records when the check starts, both are evicted and [items()] returns
    the empty list. *)
Theorem retain_one_collection_emptied :
  let clock := clock_of [0; 1] 100 in
  exists w1 w2,
    (add clock "a" ;; add clock "b") (fresh (init (E:=string) STL 10 true 100 true)) = (Return tt, w1)
    /\ _timing (obj w1) = [(1, "b"); (0, "a")]
    /\ retain_one (obj w1) = true
    /\ items clock w1 = (Return [], w2)
    /\ _timing (obj w2) = [].
Proof.
  eexists _, _. split; [vm_compute; reflexivity|]. simpl.
  split; [done|]. split; [done|]. split; [vm_compute; reflexivity|done].
Qed.

(** C5.  TTL, timeout 60 seconds: a record that is one day and five
    seconds old is not judged expired, and [items()] still returns it; the
    test of [STLArray] on the same numbers judges it expired. *)
Theorem ttl_expiry_test_drops_whole_days :
  let self := init (E:=string) TTL 60 false 100 true in
  let now := seconds 86405 in
  let clock := clock_of [0] now in
  TTL_expired self now 0 = false
  /\ now - 0 > seconds (timeout self)
  /\ (exists w, (add clock "a" ;; items clock) (fresh self) = (Return ["a"], w))
  /\ STL_expired (init (E:=string) STL 60 false 100 true) 86405 0 = true.
Proof.
  split; [by vm_compute|]. split; [by vm_compute|].
  split; [eexists; vm_compute; reflexivity|by vm_compute].
Qed.

(** C9.  TTL, timeout 60 seconds: [add("b")] at time 0, [add("c")] one
    day and one second later, then, 86399 seconds later and with no time
    passing in between, the check twice and [items()] twice.  The first
    check evicts "b", the second evicts "c"; the first [items()] returns
    ["c"], the second the empty list. *)
Theorem second_check_evicts_again :
  let clock := clock_of [0; seconds 86401; seconds 86401] (seconds 172800) in
  let w0 := run (add clock "b" ;; add clock "c") (fresh (init (E:=string) TTL 60 false 100 true)) in
  _timing (obj w0) = [(seconds 86401, "c"); (0, "b")]
  /\ (exists w1 w2,
        _check_expired clock w0 = (Return tt, w1)
        /\ _check_expired clock w1 = (Return tt, w2)
        /\ _timing (obj w1) = [(seconds 86401, "c")]
        /\ _timing (obj w2) = [])
  /\ (exists w,
        (l1 ← items clock; l2 ← items clock; mret (l1, l2)) w0
        = (Return (["c"], []), w)).
Proof.
  split; [by vm_compute|]. split.
  - eexists _, _. split; [vm_compute; reflexivity|].
    split; [vm_compute; reflexivity|]. by vm_compute.
  - eexists. vm_compute. reflexivity.
Qed.
End TTLFacts.

(** ** Capacity *)

Module Capacity.
Import Scenario.

(** C3, capacity rule.  [len(x)] runs the eviction check before it counts.
    On an [LRUArray] of non-negative capacity, after any sequence of
    calls, it returns at most [max_length].  On a [TTLArray] or [STLArray]
    built with a non-negative capacity, after any sequence of calls other
    than [deserialize] that loads only snapshots with distinct elements
    and non-negative capacities, it returns at most the current
    [max_length], or 1 when [retain_one] is set. *)
Theorem observable_length_bounded :
  (forall (E : Type) `(EqDecision E) (m : Z) (ts : bool) (ops : list (LRUCalls.op E)),
     0 <= m ->
     exists n s,
       LRUArray.len (LRUCalls.exec_all ops (LRUArray.init m ts)) = (Return n, s)
       /\ Z.of_nat n <= m)
  /\ (forall (E : Type) `(Countable E) (text : Type) (clock : nat -> Z)
       (json_dumps : list (Z * E) -> option text)
       (json_loads : text -> option (list (Z * E)))
       (c : TTLArray.class) (timeout : Z) (retain_one : bool) (m : Z) (ts : bool)
       (ops : list (TTLSpec.op E text)),
     0 <= m -> Forall TTLSpec.op_ok ops ->
     exists n w,
       TTLArray.len clock
         (TTLSpec.exec_all clock json_dumps json_loads ops
            (TTLArray.fresh (TTLArray.init c timeout retain_one m ts)))
       = (Return n, w)
       /\ (Z.of_nat n <= TTLArray.max_length (TTLArray.obj w)
           \/ (TTLArray.retain_one (TTLArray.obj w) = true /\ n = 1%nat))).
Proof.
  split.
  - intros E ? m ts ops Hm.
    destruct (LRUFacts.exec_all_shape ops (LRUArray.init m ts) Hm) as (l & -> & _).
    rewrite LRUFacts.len_spec by done. simpl.
    eexists _, _. split; [done|]. rewrite length_take. lia.
  - intros E ? ? text clock json_dumps json_loads c timeout retain_one m ts ops Hm Hops.
    assert (Hinit : TTLSpec.Inv
              (TTLArray.fresh (TTLArray.init (E:=E) c timeout retain_one m ts))).
    { split; [|done]. split; [apply NoDup_nil_2|done]. }
    pose proof (TTLFacts.exec_all_inv clock json_dumps json_loads ops _ Hops Hinit) as Hinv.
    destruct (TTLFacts.len_inv clock _ Hinv) as (n & w & Hlen & _ & Hcap).
    by exists n, w.
Qed.

Lemma observable_length_bounded_witness :
  (exists n s,
     LRUArray.len
       (LRUCalls.exec_all [LRUCalls.Add "a"; LRUCalls.Add "b"; LRUCalls.Add "c"]
          (LRUArray.init 2 true))
     = (Return n, s) /\ Z.of_nat n <= 2)
  /\ (exists n w,
        TTLArray.len (clock_of [0; 1] 100)
          (TTLSpec.exec_all (clock_of [0; 1] 100) json_dumps json_loads
             [TTLSpec.Add "a"; TTLSpec.Add "b";
              TTLSpec.LoadFromTimingList [(1, "c"); (1, "d"); (0, "e")]]
             (TTLArray.fresh (TTLArray.init TTLArray.STL 1000 false 2 true)))
        = (Return n, w)
        /\ (Z.of_nat n <= TTLArray.max_length (TTLArray.obj w)
            \/ (TTLArray.retain_one (TTLArray.obj w) = true /\ n = 1%nat))).
Proof.
  split.
  - apply (proj1 observable_length_bounded string _ 2 true). lia.
  - apply (proj2 observable_length_bounded string _ _ document (clock_of [0; 1] 100)
             json_dumps json_loads TTLArray.STL 1000 false 2 true).
    + lia.
    + repeat apply Forall_cons_2; simpl; try exact I; try apply Forall_nil_2.
      apply (bool_decide_unpack _). vm_compute. reflexivity.
Defined.

(** C3 without these conditions.  An [LRUArray] of capacity 2 stores three
    elements when the third [add] returns: [add] checks before it inserts.
    An [STLArray] of capacity 1 without [retain_one] that loaded a timing
    list naming one element twice reports length 2: the capacity loop
    counts the keys of the map, [len] the timing records. *)
Lemma capacity_exceeded :
  (exists s,
     (LRUArray.add "a" ;; LRUArray.add "b" ;; LRUArray.add "c") (LRUArray.init 2 true)
     = (Return tt, s)
     /\ length (LRUArray._items s) = 3%nat /\ LRUArray.max_length s = 2)
  /\ (exists w,
        TTLArray.len (fun _ => 5)
          (TTLSpec.exec_all (fun _ => 5) json_dumps json_loads
             [TTLSpec.LoadFromTimingList [(5, "a"); (5, "a")]]
             (TTLArray.fresh (TTLArray.init TTLArray.STL 60 false 1 true)))
        = (Return 2%nat, w)
        /\ TTLArray.max_length (TTLArray.obj w) = 1
        /\ TTLArray.retain_one (TTLArray.obj w) = false).
Proof.
  split.
  - eexists. split; [vm_compute; reflexivity|]. done.
  - eexists. split; [vm_compute; reflexivity|]. done.
Qed.
End Capacity.

(** * Further properties of the code *)

(** ** LRUArray *)

Module LRUMore.
Import LRUArray LRUCalls LRUFacts.

Section LRU.
Context {E : Type} `{EqDecision E}.
Implicit Types (self : t E) (l : list E).

Lemma take_app_take (n k : nat) (A B : list E) :
  (n <= k)%nat -> take n (A ++ take k B) = take n (A ++ B).
Proof.
  intros Hnk. rewrite !take_app, take_take. do 2 f_equal. lia.
Qed.

(** What [add_iter] stores, call by call. *)
Lemma add_iter_result l self :
  0 <= max_length self ->
  exists L,
    add_iter l self = (Return tt, set_items L self)
    /\ (NoDup l -> (forall x, x ∈ l -> x ∉ _items self) ->
        take (Z.to_nat (max_length self)) L
        = take (Z.to_nat (max_length self)) (reverse l ++ _items self)).
Proof.
  intros Hmax. revert self Hmax. induction l as [|x l IH]; intros self Hmax.
  - exists (_items self). split; [by rewrite set_items_id|done].
  - simpl. msimpl. rewrite add_spec by done.
    set (L1 := x :: without x (take (Z.to_nat (max_length self)) (_items self))).
    destruct (IH (set_items L1 self) Hmax) as (L & HL & Htake). simpl in *.
    exists L. split; [exact HL|].
    intros [Hx Hl]%NoDup_cons Hdisj.
    assert (Hx0 : x ∉ _items self) by (apply Hdisj; by left).
    assert (HL1 : L1 = x :: take (Z.to_nat (max_length self)) (_items self)).
    { unfold L1, without. rewrite deque_remove_not_elem; [done|].
      intros (i & Hi & _)%elem_of_take. apply Hx0. by eapply list_elem_of_lookup_2. }
    rewrite Htake; [|done|].
    + rewrite HL1, reverse_cons.
      change (reverse l ++ x :: take (Z.to_nat (max_length self)) (_items self))
        with (reverse l ++ [x] ++ take (Z.to_nat (max_length self)) (_items self)).
      rewrite (app_assoc (reverse l) [x]).
      by rewrite take_app_take by done.
    + intros y Hy. rewrite HL1. intros [->|Hin]%elem_of_cons; [done|].
      apply elem_of_take in Hin as (i & Hi & _).
      apply (Hdisj y); [by right|]. by eapply list_elem_of_lookup_2.
Qed.

(** X1.  With a capacity that is not negative [items()] never raises: it
    returns the newest [max_length] elements of the stored sequence, in
    order, and the elements behind them are gone from the store. *)
Theorem lru_items_keeps_newest self :
  0 <= max_length self ->
  exists kept evicted s,
    items self = (Return kept, s)
    /\ _items self = kept ++ evicted
    /\ length kept = Nat.min (length (_items self)) (Z.to_nat (max_length self))
    /\ _items s = kept
    /\ max_length s = max_length self.
Proof.
  intros Hmax.
  exists (take (Z.to_nat (max_length self)) (_items self)),
         (drop (Z.to_nat (max_length self)) (_items self)).
  eexists. rewrite items_spec by done. split; [done|]. simpl.
  rewrite take_drop, length_take. split_and!; try done. lia.
Qed.

(** X2.  With a negative capacity every call raises [IndexError] and
    leaves the collection empty: the eviction loop pops until the deque is
    empty and then pops once more.  [load] raises after it has stored its
    argument, which is evicted as well. *)
Theorem lru_negative_capacity_raises self x l :
  max_length self < 0 ->
  items self = (Raise IndexError, set_items [] self)
  /\ dump self = (Raise IndexError, set_items [] self)
  /\ len self = (Raise IndexError, set_items [] self)
  /\ add x self = (Raise IndexError, set_items [] self)
  /\ load l self = (Raise IndexError, set_items [] self).
Proof.
  intros Hmax.
  pose proof (lru_check_expired_negative self Hmax) as Hchk.
  pose proof (lru_check_expired_negative (set_items l self) Hmax) as Hchk'.
  unfold items, dump, len, items, add, load. msimpl.
  rewrite Hchk. simpl. rewrite Hchk'. done.
Qed.

(** X3.  [add_iter] of distinct elements on a new collection: [items()]
    then returns them newest first, cut at [max_length]. *)
Theorem lru_add_iter_newest_first (m : Z) (ts : bool) l :
  0 <= m -> NoDup l ->
  exists s,
    (add_iter l ;; items) (init m ts)
    = (Return (take (Z.to_nat m) (reverse l)), s).
Proof.
  intros Hm Hl.
  destruct (add_iter_result l (init m ts) Hm) as (L & HL & Htake).
  simpl in *. msimpl. rewrite HL, items_spec by done. simpl.
  rewrite Htake; [|done|by intros ? _ ?%elem_of_nil].
  rewrite app_nil_r. by eexists.
Qed.

(** X4.  [load(dump())] into a collection whose capacity is at least that
    of the source: its [items()] is what [items()] of the source returned
    at the dump. *)
Theorem lru_load_dump_roundtrip self other :
  0 <= max_length self -> max_length self <= max_length other ->
  exists d s1 s2 s3,
    dump self = (Return d, s1)
    /\ items self = (Return d, s1)
    /\ load d other = (Return tt, s2)
    /\ items s2 = (Return d, s3).
Proof.
  intros Hmax Hle.
  set (d := take (Z.to_nat (max_length self)) (_items self)).
  assert (Hlen : (length d <= Z.to_nat (max_length other))%nat)
    by (unfold d; rewrite length_take; lia).
  exists d, (set_items d self), (set_items d other), (set_items d other).
  rewrite dump_spec, items_spec, load_spec by (done || lia).
  rewrite (take_ge d) by done.
  split; [done|]. split; [done|]. split; [done|].
  rewrite items_spec by (simpl; lia). simpl. by rewrite take_ge.
Qed.

(** X5.  [items()] twice in a row returns the same list twice, and the
    second call leaves the store as the first left it. *)
Theorem lru_items_twice self :
  0 <= max_length self ->
  exists l s,
    items self = (Return l, s)
    /\ (l1 ← items; l2 ← items; mret (l1, l2)) self = (Return (l, l), s).
Proof.
  intros Hmax. msimpl. rewrite items_spec by done.
  eexists _, _. split; [done|]. simpl.
  rewrite items_spec by done. simpl. by rewrite take_take, Nat.min_id.
Qed.
End LRU.

Lemma lru_items_keeps_newest_witness :
  exists kept evicted s,
    items (mk true 2 ["c"; "b"; "a"]) = (Return kept, s)
    /\ ["c"; "b"; "a"] = kept ++ evicted
    /\ length kept = Nat.min 3 (Z.to_nat 2)
    /\ _items s = kept
    /\ max_length s = 2.
Proof. apply (lru_items_keeps_newest (mk true 2 ["c"; "b"; "a"])). simpl. lia. Defined.

Lemma lru_negative_capacity_raises_witness :
  let self := mk true (-1) ["a"] in
  items self = (Raise IndexError, set_items [] self)
  /\ dump self = (Raise IndexError, set_items [] self)
  /\ len self = (Raise IndexError, set_items [] self)
  /\ add "b" self = (Raise IndexError, set_items [] self)
  /\ load ["c"] self = (Raise IndexError, set_items [] self).
Proof.
  apply (lru_negative_capacity_raises (mk true (-1) ["a"]) "b" ["c"]). simpl. lia.
Defined.

Lemma lru_add_iter_newest_first_witness :
  exists s,
    (add_iter ["a"; "b"; "c"] ;; items) (init 2 true)
    = (Return (take (Z.to_nat 2) (reverse ["a"; "b"; "c"])), s).
Proof.
  apply (lru_add_iter_newest_first 2 true ["a"; "b"; "c"]); [lia|].
  apply (bool_decide_unpack _). vm_compute. reflexivity.
Defined.

Lemma lru_load_dump_roundtrip_witness :
  exists d s1 s2 s3,
    dump (mk true 2 ["c"; "b"; "a"]) = (Return d, s1)
    /\ items (mk true 2 ["c"; "b"; "a"]) = (Return d, s1)
    /\ load d (init 5 false) = (Return tt, s2)
    /\ items s2 = (Return d, s3).
Proof.
  apply (lru_load_dump_roundtrip (mk true 2 ["c"; "b"; "a"]) (init 5 false));
    simpl; lia.
Defined.

Lemma lru_items_twice_witness :
  exists l s,
    items (mk true 2 ["c"; "b"; "a"]) = (Return l, s)
    /\ (l1 ← items; l2 ← items; mret (l1, l2)) (mk true 2 ["c"; "b"; "a"])
       = (Return (l, l), s).
Proof. apply (lru_items_twice (mk true 2 ["c"; "b"; "a"])). simpl. lia. Defined.

Section Shared.
Context {E : Type} `{EqDecision E}.
Variable P : E -> Prop.

Lemma without_Forall x (l : list E) : Forall P l -> Forall P (without x l).
Proof.
  intros Hl. unfold without.
  destruct (deque_remove x l) as [r|] eqn:Hr; [|done]. simpl.
  apply Forall_forall. intros y Hy. rewrite Forall_forall in Hl.
  apply Hl. by eapply deque_remove_elem_of.
Qed.

Lemma lookup_total_Forall {A} `{Inhabited A} (Q : A -> Prop) (l : list A) (i : nat) :
  Q inhabitant -> Forall Q l -> Q (l !!! i).
Proof.
  intros Hd Hl. rewrite list_lookup_total_alt.
  destruct (l !! i) as [a|] eqn:Hi; simpl; [|done].
  by eapply Forall_lookup_1.
Qed.

(** What holds after the first part of a call and is kept by the rest
    holds after the call, whether a part raises or not. *)
Lemma run_bind_keeps {S A B} (Q : S -> Prop) (m : M E S A) (f : A -> M E S B) s :
  Q (run m s) -> (forall a s', Q s' -> Q (run (f a) s')) -> Q (run (m ≫= f) s).
Proof.
  unfold run. msimpl. intros Hm Hf.
  destruct (m s) as [[a|e] s'] eqn:Hms; simpl in *; [|done].
  by apply Hf.
Qed.

Lemma on_deque_holds {A} self (m : M E (t E) A) h :
  (forall s, 0 <= max_length s -> Forall P (_items s) -> Forall P (_items (run m s))) ->
  LRUShared.holds P h -> LRUShared.holds P (run (LRUShared.on_deque self m) h).
Proof.
  intros Hm [Hd Ho]. unfold LRUShared.on_deque, run in *.
  set (o := LRUShared.objects h !!! self).
  set (s0 := mk (LRUShared.threadsafe o) (LRUShared.max_length o)
                (LRUShared.deques h !!! LRUShared._items o)).
  specialize (Hm s0). destruct (m s0) as [r s1]. simpl in *.
  split; simpl; [|done]. apply Forall_insert; [done|]. apply Hm.
  - subst o. by apply (lookup_total_Forall (fun o => 0 <= LRUShared.max_length o)).
  - by apply (lookup_total_Forall (Forall P)).
Qed.

Lemma check_holds self h :
  LRUShared.holds P h -> LRUShared.holds P (run (LRUShared._check_expired self) h).
Proof.
  apply on_deque_holds. intros s Hmax Hs. unfold run.
  rewrite lru_check_expired_spec by done. by apply Forall_take.
Qed.

Lemma add_holds self x h :
  P x -> LRUShared.holds P h -> LRUShared.holds P (run (LRUShared.add self x) h).
Proof.
  intros Hx. apply on_deque_holds. intros s Hmax Hs. unfold run.
  rewrite add_spec by done. simpl.
  apply Forall_cons. split; [done|]. by apply without_Forall, Forall_take.
Qed.

Lemma items_holds self h :
  LRUShared.holds P h -> LRUShared.holds P (run (LRUShared.items self) h).
Proof.
  apply on_deque_holds. intros s Hmax Hs. unfold run.
  rewrite items_spec by done. by apply Forall_take.
Qed.

Lemma deque_holds (l : list E) h :
  Forall P l -> LRUShared.holds P h -> LRUShared.holds P (run (LRUShared.deque l) h).
Proof.
  intros Hl [Hd Ho]. split; simpl; [|done].
  apply Forall_app. split; [done|]. by constructor.
Qed.

Lemma bind_items_holds self d h :
  LRUShared.holds P h -> LRUShared.holds P (run (LRUShared.bind_items self d) h).
Proof.
  intros [Hd Ho]. split; simpl; [done|]. apply Forall_insert; [done|]. simpl.
  by apply (lookup_total_Forall (fun o => 0 <= LRUShared.max_length o)).
Qed.

(** Every call keeps the heap free of elements that were not put in. *)
Lemma exec_holds (c : LRUShared.call E) h :
  LRUShared.puts P c -> LRUShared.holds P h ->
  LRUShared.holds P (run (LRUShared.exec c) h).
Proof.
  intros Hc Hh. destruct c as [m ts|l|self x|self l|self|self|self l|self]; simpl in *.
  - destruct Hh as [Hd Ho]. split; simpl.
    + apply Forall_app. split; [done|]. by repeat constructor.
    + apply Forall_app. split; [done|]. by repeat constructor.
  - apply run_bind_keeps; [by apply deque_holds|done].
  - by apply add_holds.
  - revert h Hh. induction Hc as [|x l Hx _ IH]; intros h Hh; [done|].
    simpl. apply run_bind_keeps; [by apply add_holds|].
    intros _ h' Hh'. by apply IH.
  - apply run_bind_keeps; [by apply items_holds|done].
  - apply run_bind_keeps; [|done]. unfold LRUShared.dump, expire.
    apply run_bind_keeps; [by apply check_holds|done].
  - unfold LRUShared.load, expire_post. apply run_bind_keeps.
    + destruct l as [d|l]; [by apply bind_items_holds|].
      apply run_bind_keeps; [by apply deque_holds|].
      intros d h' Hh'. by apply bind_items_holds.
    + intros f h' Hh'. apply run_bind_keeps; [by apply check_holds|done].
  - apply run_bind_keeps; [|done]. unfold LRUShared.len.
    apply run_bind_keeps; [by apply items_holds|done].
Qed.

Lemma exec_all_holds (cs : list (LRUShared.call E)) h :
  Forall (LRUShared.puts P) cs -> LRUShared.holds P h ->
  LRUShared.holds P (LRUShared.exec_all cs h).
Proof.
  intros Hcs. revert h. induction Hcs as [|c cs Hc _ IH]; intros h Hh; [done|].
  simpl. by apply IH, exec_holds.
Qed.

(** X6.  What is returned was put in, on any number of collections that
    pass their deques to one another through [dump] and [load]: when no
    collection is created with a negative capacity and every element
    given to [add], [add_iter], [load] or a new deque has a property,
    [items()] of any collection returns, after any sequence of such calls,
    and every element it returns has the property. *)
Theorem lru_shared_items_only_what_was_put (cs : list (LRUShared.call E))
    (self : LRUShared.ref) :
  Forall (LRUShared.puts P) cs ->
  exists l h,
    LRUShared.items self (LRUShared.exec_all cs LRUShared.empty) = (Return l, h)
    /\ Forall P l.
Proof.
  intros Hcs.
  assert (Hh : LRUShared.holds P (LRUShared.exec_all cs LRUShared.empty)).
  { apply exec_all_holds; [done|]. split; constructor. }
  destruct Hh as [Hd Ho]. unfold LRUShared.items, LRUShared.on_deque.
  set (h := LRUShared.exec_all cs LRUShared.empty) in *.
  set (o := LRUShared.objects h !!! self).
  assert (Hmax : 0 <= LRUShared.max_length o)
    by by apply (lookup_total_Forall (fun o => 0 <= LRUShared.max_length o)).
  rewrite items_spec by done. simpl. eexists _, _. split; [done|].
  apply Forall_take. by apply (lookup_total_Forall (Forall P)).
Qed.
End Shared.

Section Single.
Context {E : Type} `{EqDecision E}.

(** [LRUArray.load] is [LRUShared.load] of a sequence that is no deque:
    the collection is bound to a new deque, which no other collection
    holds, and the call leaves in it what [LRUArray.load] leaves in
    [_items]. *)
Lemma shared_load_of_list (self : LRUShared.ref) (h : LRUShared.heap E) l r s :
  let o := LRUShared.objects h !!! self in
  (self < length (LRUShared.objects h))%nat ->
  load l (mk (LRUShared.threadsafe o) (LRUShared.max_length o)
             (LRUShared.deques h !!! LRUShared._items o)) = (r, s) ->
  LRUShared.load self (inr l) h
  = (r, LRUShared.mk_heap (LRUShared.deques h ++ [_items s])
          (<[self := LRUShared.mk_object (LRUShared.threadsafe o)
                       (LRUShared.max_length o) (length (LRUShared.deques h))]>
             (LRUShared.objects h))).
Proof.
  intros o Hself. unfold load, LRUShared.load, expire_post, LRUShared._check_expired,
    LRUShared.on_deque, LRUShared.deque, LRUShared.bind_items.
  msimpl. simpl. rewrite list_lookup_total_insert_eq by done. simpl.
  rewrite list_lookup_total_middle by done. fold o.
  unfold set_items. simpl.
  destruct (_check_expired (mk (LRUShared.threadsafe o) (LRUShared.max_length o) l))
    as [[[]|e] s1] eqn:Hchk; intros [= <- <-];
    by rewrite insert_app_r_alt, Nat.sub_diag by done.
Qed.

(** [LRUArray.dump] is [LRUShared.dump] read off at once: the deque
    returned holds what [LRUArray.dump] returns. *)
Lemma shared_dump_content (self : LRUShared.ref) (h : LRUShared.heap E) l s :
  let o := LRUShared.objects h !!! self in
  (LRUShared._items o < length (LRUShared.deques h))%nat ->
  dump (mk (LRUShared.threadsafe o) (LRUShared.max_length o)
           (LRUShared.deques h !!! LRUShared._items o)) = (Return l, s) ->
  exists h',
    LRUShared.dump self h = (Return (LRUShared._items o), h')
    /\ LRUShared.deques h' !!! LRUShared._items o = l
    /\ LRUShared.objects h' = LRUShared.objects h.
Proof.
  intros o Hd. unfold dump, LRUShared.dump, expire, LRUShared._check_expired,
    LRUShared.on_deque.
  msimpl. fold o.
  destruct (_check_expired (mk (LRUShared.threadsafe o) (LRUShared.max_length o)
              (LRUShared.deques h !!! LRUShared._items o)))
    as [[[]|e] s1] eqn:Hchk; [|done].
  simpl. intros [= <- <-]. eexists. split; [done|]. simpl.
  by rewrite list_lookup_total_insert_eq.
Qed.
End Single.

(** Two collections on one deque: [other.load(src.dump())] binds [other]
    to the deque of [src], and what [other.add] puts in is returned by
    [src.items()]. *)
Lemma shared_deque_seen_by_both :
  let src := 0%nat in
  let other := 1%nat in
  exists d h1 h2,
    (LRUShared.new 2 true ;; LRUShared.new 2 true ;; LRUShared.add src "a" ;;
     LRUShared.dump src) LRUShared.empty = (Return d, h1)
    /\ (LRUShared.load other (inl d) ;; LRUShared.add other "z" ;;
        LRUShared.items src) h1 = (Return ["z"; "a"], h2).
Proof. eexists _, _, _. split; vm_compute; reflexivity. Qed.

Lemma lru_shared_items_only_what_was_put_witness :
  let cs := [LRUShared.New 2 true; LRUShared.New 2 true; LRUShared.Add 0%nat "a";
             LRUShared.Dump 0%nat; LRUShared.Load 1%nat (inl 0%nat); LRUShared.Add 1%nat "z";
             LRUShared.Load 0%nat (inr ["b"; "c"; "d"]); LRUShared.AddIter 0%nat ["e"]] in
  exists l h,
    LRUShared.items 0%nat (LRUShared.exec_all cs LRUShared.empty) = (Return l, h)
    /\ Forall (fun x => String.length x = 1%nat) l.
Proof.
  apply (lru_shared_items_only_what_was_put (fun x => String.length x = 1%nat)
           [LRUShared.New 2 true; LRUShared.New 2 true; LRUShared.Add 0%nat "a";
            LRUShared.Dump 0%nat; LRUShared.Load 1%nat (inl 0%nat); LRUShared.Add 1%nat "z";
            LRUShared.Load 0%nat (inr ["b"; "c"; "d"]); LRUShared.AddIter 0%nat ["e"]] 0%nat).
  repeat constructor; simpl; lia.
Defined.
End LRUMore.

(** ** TTLArray and STLArray *)

Module TTLMore.
Import TTLArray TTLSpec TTLFacts.

Section TTL.
Context {E : Type} `{Countable E}.
Implicit Types (self : t E) (T : list (Z * E)) (w : store E).
Variable clock : nat -> Z.

Ltac tsimpl :=
  simpl in *; cbv [update _check_max_length _check_retain_one] in *; msimpl;
  simpl in *.

Lemma zip_fst_take (tl : list Z) (il : list E) :
  (zip tl il).*1 = take (length il) tl.
Proof.
  revert il. induction tl as [|t tl IH]; intros [|i il]; csimpl; [done..|].
  by rewrite IH.
Qed.

(** With a negative capacity the capacity loop evicts every record and
    then pops the empty deque. *)
Lemma capacity_loop_negative (fuel : nat) self T r :
  NoDup T.*2 -> (length T <= fuel)%nat -> max_length self < 0 ->
  capacity_loop fuel (mk_store (with_timing T self) r)
  = (Raise IndexError, mk_store (with_timing [] self) r).
Proof.
  revert T. induction fuel as [|fuel IH]; intros T Hnd Hlen Hmax.
  - destruct T as [|? T]; simpl in Hlen; [|lia].
    tsimpl. unfold len_gt. by rewrite bool_decide_eq_true_2 by (simpl; lia).
  - simpl. tsimpl. unfold len_gt. fold (index T).
    rewrite bool_decide_eq_true_2 by lia.
    destruct T as [|[t e] T' _] using rev_ind.
    + done.
    + apply NoDup_snd_snoc in Hnd as [Hnd He].
      rewrite length_app in Hlen. simpl in Hlen.
      pose proof (remove_expired_item_snoc self T' t e r He) as Hrm.
      rewrite Hrm. apply IH; [done|lia|done].
Qed.

(** X7.  A collection built from a new instance by any calls other than
    [deserialize], loading only snapshots that name each element once and
    carry no negative capacity: the map and the timing sequence hold the
    same elements with the same timestamps, one record per element. *)
Theorem calls_keep_map_consistent {text : Type}
    (json_dumps : list (Z * E) -> option text)
    (json_loads : text -> option (list (Z * E)))
    (c : class) (to : Z) (ro : bool) (m : Z) (ts : bool) (ops : list (op E text)) :
  0 <= m -> Forall op_ok ops ->
  let self := obj (exec_all clock json_dumps json_loads ops (fresh (init c to ro m ts))) in
  consistent self
  /\ NoDup (_timing self).*2
  /\ size (_items self) = length (_timing self).
Proof.
  intros Hm Hops self.
  assert (Hinit : Inv (fresh (init (E:=E) c to ro m ts))).
  { split; [|done]. split; [apply NoDup_nil_2|done]. }
  destruct (exec_all_inv clock json_dumps json_loads ops _ Hops Hinit) as [Hwf _].
  fold self in Hwf. split; [by apply wf_consistent|].
  split; [by destruct Hwf|by apply wf_size].
Qed.

(** X8.  With [retain_one] a collection that holds one record keeps it:
    [items()] and [len()] return it and change nothing, without reading
    the clock, whatever the age of the record, the timeout and the
    capacity. *)
Theorem retain_one_keeps_single_record w t e :
  retain_one (obj w) = true -> wf (obj w) -> _timing (obj w) = [(t, e)] ->
  items clock w = (Return [e], w) /\ len clock w = (Return 1%nat, w).
Proof.
  intros Hr Hwf HT.
  assert (Hsize : size (_items (obj w)) = 1%nat) by by rewrite wf_size, HT.
  pose proof (retain_one_suspends_check clock w Hr Hsize) as Hchk.
  unfold len, items, expire. msimpl. rewrite Hchk. simpl. by rewrite HT.
Qed.

(** X9.  On a well-formed collection whose capacity is not negative the
    check never raises.  It removes records from the old end only: what
    is left is a prefix of the timing sequence, the map follows it, and
    the parameters are untouched. *)
Theorem check_evicts_oldest_only w :
  Inv w ->
  exists w1 k,
    _check_expired clock w = (Return tt, w1)
    /\ _timing (obj w1) = take k (_timing (obj w))
    /\ consistent (obj w1)
    /\ capped (obj w1)
    /\ cls (obj w1) = cls (obj w)
    /\ max_length (obj w1) = max_length (obj w)
    /\ timeout (obj w1) = timeout (obj w)
    /\ retain_one (obj w1) = retain_one (obj w)
    /\ threadsafe (obj w1) = threadsafe (obj w).
Proof.
  intros [Hwf Hmax]. destruct w as [self r]. simpl in *. pose proof Hwf as [Hnd _].
  destruct (check_expired_spec clock self (_timing self) r Hnd Hmax) as [r' Hchk].
  rewrite <- (wf_with_timing self Hwf) in Hchk.
  destruct (after_check_prefix clock (expired_of (cls self)) self r (_timing self))
    as [k Hk].
  eexists _, k. split; [exact Hchk|]. simpl. split; [done|].
  split; [|split; [|done]].
  - apply wf_consistent, with_timing_wf. by apply after_check_NoDup.
  - exact (after_check_length clock _ self r (_timing self) Hmax).
Qed.

(** X10.  [add(x)] on a well-formed collection never raises.  It reads
    the clock once after the check and leaves [x] at the head with that
    reading as its timestamp, in the timing sequence and in the map; [x]
    has no other record, and every other record was there before. *)
Theorem add_puts_element_first x w :
  Inv w ->
  exists r rest w',
    add clock x w = (Return tt, w')
    /\ (reads w <= r)%nat /\ reads w' = S r
    /\ _timing (obj w') = (clock r, x) :: rest
    /\ (x ∉ rest.*2)
    /\ _items (obj w') !! x = Some (clock r)
    /\ (forall rec, rec ∈ rest -> rec ∈ _timing (obj w))
    /\ Inv w'.
Proof.
  intros Hw.
  destruct (check_expired_prefix clock w Hw)
    as ([self r] & k & Hchk & [Hwf Hmax] & HT & Hr).
  simpl in *. unfold add, expire. msimpl. rewrite Hchk. unfold _no_right_now. tsimpl.
  assert (Hsub : forall rec, rec ∈ _timing self -> rec ∈ _timing (obj w)).
  { intros rec. rewrite HT. intros (i & Hi & _)%elem_of_take.
    by eapply list_elem_of_lookup_2. }
  destruct Hwf as [Hnd Hi].
  destruct (_items self !! x) as [time|] eqn:Hx.
  - rewrite Hi in Hx. pose proof Hx as Hin. apply index_lookup in Hin; [|done].
    destruct (deque_remove_elem _ _ Hin) as [rest Hrest]. rewrite Hrest. simpl.
    destruct (index_remove_insert _ _ _ _ (clock r) Hnd Hrest) as [Hnd' Hidx].
    exists r, rest. eexists. split; [done|]. simpl.
    split; [done|]. split; [done|]. split; [done|].
    split; [by apply NoDup_cons in Hnd' as [? _]|].
    split; [by rewrite lookup_insert_eq|].
    split; [intros rec ?; by eapply Hsub, deque_remove_elem_of|].
    split; [split|]; simpl; [done| |done]. by rewrite Hi.
  - simpl. rewrite Hi in Hx. apply index_lookup_None in Hx.
    exists r, (_timing self). eexists. split; [done|]. simpl.
    split; [done|]. split; [done|]. split; [done|]. split; [done|].
    split; [by rewrite lookup_insert_eq|]. split; [done|].
    split; [split|]; simpl; [by apply NoDup_cons| |done]. by rewrite Hi.
Qed.

(** X11.  [load] with a [params] dictionary that lacks one of its four
    keys raises [KeyError] naming a missing key, after the lists have
    replaced the timing sequence and the map; the check is not run and
    the clock is not read. *)
Theorem load_params_missing_key w (il : list E) (tl : list Z) (p : params_dict) :
  nonempty_params p = true ->
  _timeout p = None \/ _max_length p = None
  \/ _retain_one p = None \/ _threadsafe p = None ->
  exists key w',
    load clock (Some (mk_snapshot (Some p) (Some tl) (Some il))) w
    = (Raise (KeyError (inl key)), w')
    /\ (key = "_timeout" /\ _timeout p = None
        \/ key = "_max_length" /\ _max_length p = None
        \/ key = "_retain_one" /\ _retain_one p = None
        \/ key = "_threadsafe" /\ _threadsafe p = None)
    /\ _timing (obj w') = zip tl il
    /\ _items (obj w') = dict (zip il tl)
    /\ reads w' = reads w.
Proof.
  intros Hp Hmiss. unfold load, expire_post, _load_lists, _load_params, getitem.
  tsimpl. rewrite Hp.
  destruct p as [[a|] [b|] [c|] [d|]]; tsimpl;
    try (exfalso; by destruct Hmiss as [?|[?|[?|?]]]);
    eexists _, _; (split; [done|]); (split; [|done]); auto 10.
Qed.

(** X12.  [_load_lists] pairs the two lists position by position and
    stops at the end of the shorter one; nothing is raised for lists of
    different lengths.  When the item list names no element twice the map
    agrees with the timing sequence. *)
Theorem load_lists_stops_at_shorter w (il : list E) (tl : list Z) :
  exists w',
    _load_lists il tl w = (Return tt, w')
    /\ (_timing (obj w')).*1 = take (length il) tl
    /\ (_timing (obj w')).*2 = take (length tl) il
    /\ length (_timing (obj w')) = Nat.min (length il) (length tl)
    /\ reads w' = reads w
    /\ (NoDup il -> consistent (obj w')).
Proof.
  unfold _load_lists. tsimpl. eexists. split; [done|]. simpl.
  split; [apply zip_fst_take|]. split; [apply zip_snd_take|].
  split; [rewrite length_zip; lia|]. split; [done|].
  intros Hil. apply wf_consistent. split; simpl; [by apply NoDup_zip_snd|].
  rewrite <- zip_swap. apply dict_index. by apply NoDup_zip_snd.
Qed.

(** X13.  With a negative capacity the check of a well-formed collection
    evicts every record and raises [IndexError], unless [retain_one] holds
    a single record; [items()] raises with it. *)
Theorem negative_capacity_raises w :
  wf (obj w) -> max_length (obj w) < 0 ->
  retain_one (obj w) = false \/ length (_timing (obj w)) <> 1%nat ->
  exists w',
    _check_expired clock w = (Raise IndexError, w')
    /\ items clock w = (Raise IndexError, w')
    /\ _timing (obj w') = [] /\ _items (obj w') = ∅ /\ reads w' = reads w.
Proof.
  intros Hwf Hmax Hr. destruct w as [self r]. simpl in *. pose proof Hwf as [Hnd _].
  exists (mk_store (with_timing [] self) r).
  assert (Hchk : _check_expired clock (mk_store self r)
                 = (Raise IndexError, mk_store (with_timing [] self) r)).
  { rewrite check_expired_dispatch. unfold _check_expired_with. tsimpl.
    rewrite (wf_size self Hwf).
    assert (Hro : retain_one self && bool_decide (length (_timing self) = 1%nat) = false).
    { destruct Hr as [->|Hlen]; [done|].
      by rewrite bool_decide_eq_false_2, andb_false_r. }
    rewrite Hro.
    pose proof (capacity_loop_negative (length (_timing self)) self (_timing self) r
                  Hnd ltac:(lia) Hmax) as Hloop.
    rewrite <- (wf_with_timing self Hwf) in Hloop. by rewrite Hloop. }
  split; [done|]. unfold items, expire. msimpl. by rewrite Hchk.
Qed.

(** X14.  [dump] on a well-formed collection returns [None] exactly when
    nothing is left after the check.  Otherwise the snapshot holds two
    lists of the same length that pair up to the timing sequence, and the
    four parameters, the booleans as the strings [str] gives, exactly when
    [include_params] is set. *)
Theorem dump_snapshot_contract (include_params : bool) w :
  Inv w ->
  exists v w1,
    dump clock include_params w = (Return v, w1)
    /\ _check_expired clock w = (Return tt, w1)
    /\ match v with
       | None => _timing (obj w1) = []
       | Some d =>
           _timing (obj w1) <> []
           /\ (exists tl il,
                 timing_list d = Some tl /\ item_list d = Some il
                 /\ length tl = length il /\ zip tl il = _timing (obj w1))
           /\ params d
              = if include_params
                then Some (mk_params (Some (timeout (obj w1)))
                             (Some (max_length (obj w1)))
                             (Some (if retain_one (obj w1) then "True" else "False"))
                             (Some (if threadsafe (obj w1) then "True" else "False")))
                else None
       end.
Proof.
  intros Hw. destruct (check_expired_inv clock w Hw) as (w1 & Hchk & _ & _).
  assert (Hlen : forall T, length T.*1 = length T.*2)
    by (intros T; by rewrite !length_fmap).
  unfold dump, expire. msimpl. rewrite Hchk. simpl.
  destruct (_timing (obj w1)) as [|rec T] eqn:HT.
  - exists None, w1. by rewrite HT.
  - eexists (Some _), w1. split; [done|]. split; [done|]. simpl.
    rewrite HT. split; [done|]. split; [|by destruct include_params].
    exists ((rec :: T).*1), ((rec :: T).*2). split; [done|]. split; [done|].
    split; [apply Hlen|apply zip_fst_snd].
Qed.

(** What [add] leaves, as a well-formed object. *)
Lemma add_result x w :
  Inv w ->
  exists r rest,
    add clock x w
    = (Return tt, mk_store (with_timing ((clock r, x) :: rest) (obj w)) (S r))
    /\ (reads w <= r)%nat
    /\ NoDup ((clock r, x) :: rest).*2
    /\ (forall rec, rec ∈ rest -> rec ∈ _timing (obj w)).
Proof.
  intros [Hwf Hmax]. pose proof (check_expired_reads clock w) as Hreads.
  destruct w as [self r0]. simpl in *. pose proof Hwf as [Hnd _].
  destruct (check_expired_spec clock self (_timing self) r0 Hnd Hmax) as [r Hchk].
  rewrite <- (wf_with_timing self Hwf) in Hchk. rewrite Hchk in Hreads. simpl in Hreads.
  destruct (after_check_prefix clock (expired_of (cls self)) self r0 (_timing self))
    as [k Hk].
  assert (HndA : NoDup (take k (_timing self)).*2) by by apply NoDup_take_snd.
  assert (Hsub : forall rec, rec ∈ take k (_timing self) -> rec ∈ _timing self).
  { intros rec (i & Hi & _)%elem_of_take. by eapply list_elem_of_lookup_2. }
  rewrite Hk in Hchk. clear Hk.
  unfold add, expire. msimpl. rewrite Hchk. unfold _no_right_now. tsimpl.
  fold (index (take k (_timing self))).
  destruct (index (take k (_timing self)) !! x) as [time|] eqn:Hx.
  - pose proof Hx as Hin. apply index_lookup in Hin; [|done].
    destruct (deque_remove_elem _ _ Hin) as [rest Hrest]. rewrite Hrest. simpl.
    destruct (index_remove_insert _ _ _ _ (clock r) HndA Hrest) as [Hnd' Hidx].
    exists r, rest. split; [|split; [done|split; [done|]]].
    + unfold with_timing, set_items, set_timing. simpl. by rewrite Hidx.
    + intros rec ?. by eapply Hsub, deque_remove_elem_of.
  - simpl. apply index_lookup_None in Hx.
    exists r, (take k (_timing self)). split; [done|]. split; [done|].
    split; [by apply NoDup_cons|done].
Qed.

Lemma expired_of_zero (c : class) self (now : Z) :
  0 <= timeout self -> expired_of c self now now = false.
Proof.
  intros Hto. destruct c; simpl; unfold TTL_expired, STL_expired, timedelta_seconds;
    rewrite Z.sub_diag; apply bool_decide_eq_false_2.
  - change ((0 `mod` 86400000000) `div` 1000000) with 0. lia.
  - lia.
Qed.

(** X21.  [deserialize] into a collection whose map is empty (a new
    instance) replaces the timing sequence by the records of the text and
    leaves the map empty; the check then reads the clock once.  In an STL
    collection it tests the newest record: when that is not expired the
    call returns with every record of the text; when it is, the oldest
    record is popped and the call raises [KeyError] for its element, which
    the map does not hold.  In a TTL collection the test itself raises
    [TypeError], the decoded timestamp being a number and no [datetime],
    and every record of the text stays. *)
Theorem deserialize_with_empty_map {text : Type}
    (json_loads : text -> option (list (Z * E))) (s : text) w
    (d' : list (Z * E)) (tl : Z) (el : E) :
  _items (obj w) = ∅ -> 0 <= max_length (obj w) ->
  json_loads s = Some (d' ++ [(tl, el)]) ->
  let d := d' ++ [(tl, el)] in
  let newest := (default (tl, el) (head d)).1 in
  deserialize clock json_loads s w
  = match cls (obj w) with
    | TTL => (Raise TypeError, mk_store (set_timing d (obj w)) (S (reads w)))
    | STL =>
        if STL_expired (obj w) (clock (reads w)) newest
        then (Raise (KeyError (inr el)), mk_store (set_timing d' (obj w)) (S (reads w)))
        else (Return tt, mk_store (set_timing d (obj w)) (S (reads w)))
    end.
Proof.
  intros Hitems Hmax Hjson d newest.
  assert (Hd : exists x rest, d' ++ [(tl, el)] = (newest, x) :: rest).
  { unfold newest, d. destruct d' as [|[t0 x0] d'']; simpl; eauto. }
  destruct Hd as (x & rest & Hd). fold d in Hd.
  destruct w as [self r]. simpl in *.
  unfold deserialize, expire_post, _check_expired_decoded. tsimpl.
  rewrite Hjson. simpl. destruct (cls self) eqn:Hcls.
  - tsimpl. rewrite Hitems, map_size_empty, andb_false_r. tsimpl.
    unfold len_gt. rewrite Hitems, map_size_empty.
    rewrite bool_decide_eq_false_2 by lia. simpl.
    unfold d. by destruct d'.
  - unfold _check_expired, _check_expired_with. tsimpl. rewrite Hcls. tsimpl.
    rewrite Hitems, map_size_empty, andb_false_r. tsimpl.
    unfold len_gt. rewrite Hitems, map_size_empty.
    rewrite bool_decide_eq_false_2 by lia. fold d.
    rewrite Hd at 1. simpl. unfold _no_right_now. tsimpl.
    change (STL_expired (set_timing d self) (clock r) newest)
      with (STL_expired self (clock r) newest).
    destruct (STL_expired self (clock r) newest) eqn:Hexp; [|done].
    unfold _remove_expired_item. tsimpl.
    unfold d. rewrite deque_pop_snoc. tsimpl.
    rewrite Hitems, lookup_empty. by rewrite decide_False by (by intros [? ?]).
Qed.

(** *** STL with sorted records while the clock stands still *)

Lemma sweep_count_timeout (a b : t E) r T :
  timeout a = timeout b ->
  sweep_count clock STL_expired a r T = sweep_count clock STL_expired b r T.
Proof.
  intros Hto. revert r. induction T as [|[d x] T IH]; intros r; simpl; [done|].
  unfold STL_expired at 1 3. rewrite Hto. by rewrite IH.
Qed.

Lemma after_check_params (a b : t E) r T :
  max_length a = max_length b -> timeout a = timeout b ->
  retain_one a = retain_one b ->
  after_check clock STL_expired a r T = after_check clock STL_expired b r T.
Proof.
  intros Hm Hto Hr. unfold after_check. rewrite Hm, Hr.
  by rewrite (sweep_count_timeout a b).
Qed.

Section Still.
(** From the [r0]-th reading on the clock stands still at [now]. *)
Variable now : Z.
Variable r0 : nat.
Hypothesis clock_still : forall n, (r0 <= n)%nat -> clock n = now.

(** A sequence the check has left, put into an object with the same
    parameters, is left as it is by the next check. *)
Lemma check_leaves_checked (a b : t E) r r' T A :
  (r0 <= r)%nat -> (r0 <= r')%nat -> cls b = STL ->
  max_length a = max_length b -> timeout a = timeout b ->
  retain_one a = retain_one b -> 0 <= max_length a ->
  NoDup T.*2 -> newest_first T = true ->
  A = after_check clock STL_expired a r T ->
  exists r'',
    _check_expired clock (mk_store (with_timing A b) r')
    = (Return tt, mk_store (with_timing A b) r'').
Proof.
  intros Hr Hr' Hcls Hm Hto Hro Hmax Hnd Hs HA.
  assert (HndA : NoDup A.*2) by (subst A; by apply after_check_NoDup).
  destruct (check_expired_spec clock b A r' HndA ltac:(lia)) as [r'' Hchk].
  rewrite Hcls in Hchk. simpl in Hchk. exists r''. rewrite Hchk.
  rewrite <- (after_check_params a b) by done.
  rewrite HA at 1.
  rewrite (after_check_idempotent clock now r0 clock_still a r r' T) by done.
  by rewrite <- HA.
Qed.

(** X15.  STL, sorted records, no time passing: beyond the capacity rule
    the check evicts all records or none.  [items()] returns nothing when
    the newest record kept by the capacity rule is older than the timeout,
    and every record the capacity rule keeps when it is not, however old
    the records behind it are. *)
Theorem stl_sorted_sweep_all_or_nothing w :
  (r0 <= reads w)%nat -> cls (obj w) = STL -> Inv w ->
  newest_first (_timing (obj w)) = true ->
  retain_one (obj w) = false \/ length (_timing (obj w)) <> 1%nat ->
  exists w1,
    items clock w = (Return (_timing (obj w1)).*2, w1)
    /\ _timing (obj w1)
       = match take (Z.to_nat (max_length (obj w))) (_timing (obj w)) with
         | [] => []
         | (t, x) :: rest =>
             if bool_decide (now - t > timeout (obj w)) then []
             else (t, x) :: rest
         end.
Proof.
  intros Hr0 Hcls [Hwf Hmax] Hs Hro. destruct w as [self r]. simpl in *.
  pose proof Hwf as [Hnd _].
  destruct (check_expired_spec clock self (_timing self) r Hnd Hmax) as [r1 Hchk].
  rewrite <- (wf_with_timing self Hwf) in Hchk. rewrite Hcls in Hchk. simpl in Hchk.
  exists (mk_store (with_timing (after_check clock STL_expired self r (_timing self))
                     self) r1).
  unfold items, expire. msimpl. rewrite Hchk. simpl. split; [done|].
  unfold after_check.
  assert (Hb : retain_one self && bool_decide (length (_timing self) = 1%nat) = false).
  { destruct Hro as [->|Hlen]; [done|].
    by rewrite bool_decide_eq_false_2, andb_false_r. }
  rewrite Hb.
  assert (Hsc : newest_first (take (Z.to_nat (max_length self)) (_timing self)) = true)
    by by apply newest_first_take.
  generalize dependent (take (Z.to_nat (max_length self)) (_timing self)).
  intros Tc Hsc.
  pose proof (sweep_count_sorted clock now r0 clock_still self r Tc Hr0 Hsc) as Hcount.
  destruct Tc as [|[t x] Tc']; [by rewrite take_nil|].
  rewrite Hcount. unfold STL_expired.
  destruct (bool_decide (now - t > timeout self)).
  - by rewrite Nat.sub_diag, take_0.
  - by rewrite Nat.sub_0_r, firstn_all.
Qed.

(** X16.  STL, sorted records, no time passing: [items()] twice in a row
    returns the same list twice and the second call leaves the object as
    the first left it. *)
Theorem stl_items_twice w :
  (r0 <= reads w)%nat -> cls (obj w) = STL -> Inv w ->
  newest_first (_timing (obj w)) = true ->
  exists l w1 w2,
    items clock w = (Return l, w1)
    /\ items clock w1 = (Return l, w2)
    /\ obj w2 = obj w1.
Proof.
  intros Hr0 Hcls Hw Hs.
  destruct (check_expired_idempotent clock now r0 clock_still w Hr0 Hcls Hw Hs)
    as (w1 & w2 & Hchk1 & Hchk2 & Hobj & _).
  exists (_timing (obj w1)).*2, w1, w2. unfold items, expire. msimpl.
  rewrite Hchk1, Hchk2. simpl. by rewrite Hobj.
Qed.

(** X17.  STL, sorted records, no time passing: a snapshot dumped with
    its parameters and loaded into any other STL collection makes that
    collection equal to the source: same timing sequence, same map, same
    timeout, capacity, [retain_one] and [threadsafe]. *)
Theorem stl_dump_load_roundtrip w y :
  (r0 <= reads w)%nat -> (r0 <= reads y)%nat ->
  cls (obj w) = STL -> cls (obj y) = STL -> Inv w ->
  newest_first (_timing (obj w)) = true ->
  exists v w1,
    dump clock true w = (Return v, w1)
    /\ match v with
       | None => _timing (obj w1) = []
       | Some d =>
           exists y1, load clock (Some d) y = (Return tt, y1) /\ obj y1 = obj w1
       end.
Proof.
  intros Hr0 Hr0y Hcls Hclsy [Hwf Hmax] Hs. destruct w as [self r]. simpl in *.
  pose proof Hwf as [Hnd _].
  destruct (check_expired_spec clock self (_timing self) r Hnd Hmax) as [r1 Hchk].
  rewrite <- (wf_with_timing self Hwf) in Hchk. rewrite Hcls in Hchk. simpl in Hchk.
  remember (after_check clock STL_expired self r (_timing self)) as A eqn:HA.
  assert (HndA : NoDup A.*2) by (subst A; by apply after_check_NoDup).
  unfold dump, expire. msimpl. rewrite Hchk. simpl.
  destruct A as [|rec A'] eqn:HeqA; [by eexists None, _|].
  rewrite <- HeqA in *. eexists (Some _), _. split; [done|].
  destruct (check_leaves_checked self self r (reads y) (_timing self) A)
    as [r2 Hchk2]; try done.
  exists (mk_store (with_timing A self) r2). split; [|done].
  assert (Hloaded :
    forall yo : t E, cls yo = STL ->
      set_threadsafe (if decide (str_bool (threadsafe self) = "True") then true else false)
        (set_retain_one (if decide (str_bool (retain_one self) = "True") then true else false)
          (set_max_length (max_length self)
            (set_timeout (timeout self)
              (set_timing (zip A.*1 A.*2)
                (set_items (dict (zip A.*2 A.*1)) yo)))))
      = with_timing A self).
  { intros yo Hyo. rewrite zip_fst_snd, <- (zip_swap A.*1 A.*2), zip_fst_snd.
    rewrite dict_index by done.
    destruct self as [c ts m to ro Ts Is], yo as [cy tsy my toy roy Ty Iy].
    simpl in *. subst c cy. by destruct ts, ro. }
  unfold load, expire_post, _load_lists, _load_params, getitem. tsimpl.
  destruct y as [yo ry]. simpl in *.
  rewrite (Hloaded yo Hclsy). by rewrite Hchk2.
Qed.

(** X18.  STL, sorted records, no time passing: the list returned by
    [dump_timing_list] and given to [load_from_timing_list] of another STL
    collection with the same timeout, capacity and [retain_one] gives that
    collection the timing sequence and the map of the source. *)
Theorem stl_timing_list_roundtrip w y :
  (r0 <= reads w)%nat -> (r0 <= reads y)%nat ->
  cls (obj w) = STL -> cls (obj y) = STL -> Inv w ->
  newest_first (_timing (obj w)) = true ->
  max_length (obj y) = max_length (obj w) ->
  timeout (obj y) = timeout (obj w) ->
  retain_one (obj y) = retain_one (obj w) ->
  exists T1 w1 y1,
    dump_timing_list clock w = (Return T1, w1)
    /\ load_from_timing_list clock T1 y = (Return tt, y1)
    /\ _timing (obj w1) = T1
    /\ _timing (obj y1) = T1
    /\ _items (obj y1) = _items (obj w1).
Proof.
  intros Hr0 Hr0y Hcls Hclsy [Hwf Hmax] Hs Hm Hto Hro.
  destruct w as [self r], y as [yo ry]. simpl in *. pose proof Hwf as [Hnd _].
  destruct (check_expired_spec clock self (_timing self) r Hnd Hmax) as [r1 Hchk].
  rewrite <- (wf_with_timing self Hwf) in Hchk. rewrite Hcls in Hchk. simpl in Hchk.
  remember (after_check clock STL_expired self r (_timing self)) as A eqn:HA.
  assert (HndA : NoDup A.*2) by (subst A; by apply after_check_NoDup).
  destruct (check_leaves_checked self yo r ry (_timing self) A)
    as [r2 Hchk2]; try done.
  exists A, (mk_store (with_timing A self) r1), (mk_store (with_timing A yo) r2).
  unfold dump_timing_list, load_from_timing_list, expire, expire_post, _rebuild_items.
  tsimpl. rewrite Hchk. simpl. split; [done|].
  rewrite dict_index by done.
  change (set_items (index A) (set_timing A yo)) with (with_timing A yo).
  by rewrite Hchk2.
Qed.
(** What [deque.remove] leaves of a timing sequence that names no
    element twice: the records of the other elements, in their order. *)
Lemma deque_remove_filter (T rest : list (Z * E)) (time : Z) (x : E) :
  NoDup T.*2 -> deque_remove (time, x) T = Some rest ->
  rest = filter (fun rec => rec.2 <> x) T.
Proof.
  revert rest. induction T as [|[t y] T IH]; intros rest Hnd; simpl; [done|].
  csimpl in Hnd. apply NoDup_cons in Hnd as [Hy Hnd].
  case_decide as Heq.
  - intros [= <-]. injection Heq as -> ->.
    rewrite filter_cons_False by (simpl; tauto).
    clear IH Hnd. induction T as [|[t' y'] T IH]; [done|].
    csimpl in Hy. apply not_elem_of_cons in Hy as [Hne Hy].
    rewrite filter_cons_True by (simpl; congruence). by rewrite <- IH.
  - destruct (deque_remove (time, x) T) as [r|] eqn:Hr; [|done].
    intros [= <-].
    assert (Hne : y <> x).
    { intros ->. apply Hy. apply list_elem_of_fmap. exists (time, x).
      split; [done|]. destruct (deque_remove_split _ _ _ Hr) as (l1 & l2 & -> & _).
      apply elem_of_app. right. by left. }
    rewrite filter_cons_True by done. f_equal. by apply IH.
Qed.

Lemma filter_absent (T : list (Z * E)) (x : E) :
  x ∉ T.*2 -> filter (fun rec => rec.2 <> x) T = T.
Proof.
  induction T as [|[t y] T IH]; [done|]. csimpl.
  intros [Hne Hx]%not_elem_of_cons.
  rewrite filter_cons_True by (simpl; congruence). by rewrite IH.
Qed.

Lemma filter_snd (T : list (Z * E)) (x : E) :
  (filter (fun rec => rec.2 <> x) T).*2 = filter (fun e => e <> x) T.*2.
Proof.
  induction T as [|[t y] T IH]; [done|]. csimpl.
  destruct (decide (y = x)) as [->|Hne].
  - by rewrite !filter_cons_False by (simpl; tauto).
  - rewrite !filter_cons_True by done. csimpl. by rewrite IH.
Qed.

(** What [add] stores, given what its check leaves. *)
Lemma add_after_check x (self : t E) (r r1 : nat) (A : list (Z * E)) :
  NoDup A.*2 ->
  _check_expired clock (mk_store self r) = (Return tt, mk_store (with_timing A self) r1) ->
  add clock x (mk_store self r)
  = (Return tt,
     mk_store (with_timing ((clock r1, x) :: filter (fun rec => rec.2 <> x) A) self)
              (S r1)).
Proof.
  intros HndA Hchk.
  unfold add, expire. msimpl. rewrite Hchk. unfold _no_right_now. tsimpl.
  fold (index A).
  destruct (index A !! x) as [time|] eqn:Hx.
  - pose proof Hx as Hin. apply index_lookup in Hin; [|done].
    destruct (deque_remove_elem _ _ Hin) as [rest Hrest]. rewrite Hrest. simpl.
    destruct (index_remove_insert _ _ _ _ (clock r1) HndA Hrest) as [Hnd' Hidx].
    rewrite <- (deque_remove_filter A rest time x HndA Hrest).
    unfold with_timing, set_items, set_timing. simpl. by rewrite Hidx.
  - simpl. apply index_lookup_None in Hx. by rewrite filter_absent.
Qed.

(** X22.  [add(x)] and then [items()] with no time passing, timeout not
    negative and capacity at least 1, on a well-formed collection: the
    list returned is [x] followed by what [items()] returns when called in
    place of the [add], without [x] and in the same order, cut to the
    capacity.  The check of [items()] stops at the record of [x], so
    nothing behind it expires. *)
Theorem add_then_items_returns_it_first x w :
  (r0 <= reads w)%nat -> Inv w ->
  0 <= timeout (obj w) -> 1 <= max_length (obj w) ->
  exists old w0 w',
    items clock w = (Return old, w0)
    /\ (add clock x ;; items clock) w
       = (Return (x :: take (Z.to_nat (max_length (obj w)) - 1)
                         (filter (fun e => e <> x) old)), w').
Proof.
  intros Hr0 [Hwf Hmax0] Hto Hmax.
  pose proof (check_expired_reads clock w) as Hreads.
  destruct w as [self r]. simpl in *. pose proof Hwf as [Hnd _].
  destruct (check_expired_spec clock self (_timing self) r Hnd Hmax0) as [r1 Hchk].
  rewrite <- (wf_with_timing self Hwf) in Hchk. rewrite Hchk in Hreads. simpl in Hreads.
  set (A := after_check clock (expired_of (cls self)) self r (_timing self)) in *.
  assert (HndA : NoDup A.*2) by by apply after_check_NoDup.
  pose proof (add_after_check x self r r1 A HndA Hchk) as Hadd.
  rewrite (clock_still r1) in Hadd by lia.
  set (F := filter (fun rec => rec.2 <> x) A) in *.
  assert (HndF : NoDup ((now, x) :: F).*2).
  { csimpl. apply NoDup_cons. split.
    - unfold F. rewrite filter_snd. by intros [? _]%list_elem_of_filter.
    - unfold F. rewrite filter_snd. by apply NoDup_filter. }
  destruct (check_expired_spec clock self ((now, x) :: F) (S r1) HndF Hmax0)
    as [r' Hchk'].
  exists A.*2. eexists _, _. split.
  - unfold items, expire. msimpl. by rewrite Hchk.
  - msimpl. rewrite Hadd. unfold items, expire. msimpl. rewrite Hchk'. simpl.
    do 2 f_equal. rewrite <- filter_snd. fold F. unfold after_check.
    destruct (retain_one self && bool_decide (length ((now, x) :: F) = 1%nat))
      eqn:Hro.
    + apply andb_true_iff in Hro as [_ Hlen%bool_decide_eq_true].
      destruct F; [|done]. simpl. by rewrite take_nil.
    + destruct (Z.to_nat (max_length self)) as [|n] eqn:Hn; [lia|].
      simpl. rewrite clock_still by lia.
      rewrite expired_of_zero by done. simpl.
      by rewrite Nat.sub_0_r, firstn_all, fmap_take.
Qed.
End Still.

(** X19.  The expiry test of [TTLArray] sees only the time of day of the
    elapsed time, in whole seconds: a record whose age is [k] days more is
    judged as one that is [k] days younger. *)
Theorem ttl_expiry_test_is_periodic self (now d k : Z) :
  0 <= now - d < 86400000000 ->
  TTL_expired self (now + k * 86400000000) d
  = bool_decide ((now - d) / 1000000 > timeout self).
Proof.
  intros Hday. unfold TTL_expired, timedelta_seconds.
  replace (now + k * 86400000000 - d) with (now - d + k * 86400000000) by lia.
  by rewrite Z.mod_add, Z.mod_small by lia.
Qed.

(** X20.  With a clock that never goes back, a collection built from a
    new instance by calls that restore nothing has its timing sequence
    sorted newest first, and no timestamp is later than the next clock
    reading. *)
Theorem calls_keep_timing_sorted {text : Type}
    (json_dumps : list (Z * E) -> option text)
    (json_loads : text -> option (list (Z * E)))
    (c : class) (to : Z) (ro : bool) (m : Z) (ts : bool) (ops : list (op E text)) :
  (forall n k, (n <= k)%nat -> clock n <= clock k) ->
  0 <= m -> Forall no_restore ops ->
  let w := exec_all clock json_dumps json_loads ops (fresh (init c to ro m ts)) in
  newest_first (_timing (obj w)) = true
  /\ (forall rec, rec ∈ _timing (obj w) -> rec.1 <= clock (reads w)).
Proof.
  intros Hmono Hm Hops w.
  destruct (exec_all_timely clock json_dumps json_loads Hmono ops
              (fresh (init c to ro m ts)) Hops) as [_ Hw]; [| |exact Hw].
  - split; [|done]. split; [apply NoDup_nil_2|done].
  - split; [done|]. by intros rec ?%elem_of_nil.
Qed.
End TTL.

Import Scenario.

Lemma calls_keep_map_consistent_witness :
  let self :=
    obj (exec_all (clock_of [0; 1] 5) json_dumps json_loads
           [Add "a"; LoadFromTimingList [(1, "c"); (0, "b")]; Add "b"]
           (fresh (init STL 10 false 2 true))) in
  consistent self
  /\ NoDup (_timing self).*2
  /\ size (_items self) = length (_timing self).
Proof.
  apply (calls_keep_map_consistent (clock_of [0; 1] 5) json_dumps json_loads
           STL 10 false 2 true
           [Add "a"; LoadFromTimingList [(1, "c"); (0, "b")]; Add "b"]); [lia|].
  repeat apply Forall_cons_2; simpl; try exact I; try apply Forall_nil_2.
  apply (bool_decide_unpack _). vm_compute. reflexivity.
Defined.

Lemma retain_one_keeps_single_record_witness :
  let w := mk_store (with_timing [(0, "a")] (init STL 10 true 0 true)) 0 in
  items (fun _ => 1000) w = (Return ["a"], w)
  /\ len (fun _ => 1000) w = (Return 1%nat, w).
Proof.
  apply (retain_one_keeps_single_record (fun _ => 1000)
           (mk_store (with_timing [(0, "a")] (init STL 10 true 0 true)) 0) 0 "a").
  - reflexivity.
  - apply with_timing_wf. apply (bool_decide_unpack _). vm_compute. reflexivity.
  - reflexivity.
Defined.

Lemma sample_Inv (c : class) (m : Z) (r : nat) :
  0 <= m ->
  Inv (mk_store (with_timing [(5, "b"); (0, "a")] (init c 10 false m true)) r).
Proof.
  intros Hm. split; [|done]. apply with_timing_wf.
  apply (bool_decide_unpack _). vm_compute. reflexivity.
Qed.

Lemma check_evicts_oldest_only_witness :
  let w := mk_store (with_timing [(5, "b"); (0, "a")] (init TTL 10 false 1 true)) 3 in
  exists w1 k,
    _check_expired (fun _ => 7) w = (Return tt, w1)
    /\ _timing (obj w1) = take k (_timing (obj w))
    /\ consistent (obj w1)
    /\ capped (obj w1)
    /\ cls (obj w1) = cls (obj w)
    /\ max_length (obj w1) = max_length (obj w)
    /\ timeout (obj w1) = timeout (obj w)
    /\ retain_one (obj w1) = retain_one (obj w)
    /\ threadsafe (obj w1) = threadsafe (obj w).
Proof.
  apply (check_evicts_oldest_only (fun _ => 7)
           (mk_store (with_timing [(5, "b"); (0, "a")] (init TTL 10 false 1 true)) 3)).
  apply sample_Inv. lia.
Defined.

Lemma add_puts_element_first_witness :
  let w := mk_store (with_timing [(5, "b"); (0, "a")] (init STL 10 false 100 true)) 3 in
  exists r rest w',
    add (fun _ => 7) "a" w = (Return tt, w')
    /\ (reads w <= r)%nat /\ reads w' = S r
    /\ _timing (obj w') = (7, "a") :: rest
    /\ ("a" ∉ rest.*2)
    /\ _items (obj w') !! "a" = Some 7
    /\ (forall rec, rec ∈ rest -> rec ∈ _timing (obj w))
    /\ Inv w'.
Proof.
  apply (add_puts_element_first (fun _ => 7) "a"
           (mk_store (with_timing [(5, "b"); (0, "a")] (init STL 10 false 100 true)) 3)).
  apply sample_Inv. lia.
Defined.

Lemma load_params_missing_key_witness :
  let w := fresh (init (E:=string) STL 10 false 100 true) in
  let p := mk_params (Some 60) None (Some "True") (Some "True") in
  exists key w',
    load (fun _ => 7) (Some (mk_snapshot (Some p) (Some [5; 0]) (Some ["b"; "a"]))) w
    = (Raise (KeyError (inl key)), w')
    /\ (key = "_timeout" /\ _timeout p = None
        \/ key = "_max_length" /\ _max_length p = None
        \/ key = "_retain_one" /\ _retain_one p = None
        \/ key = "_threadsafe" /\ _threadsafe p = None)
    /\ _timing (obj w') = zip [5; 0] ["b"; "a"]
    /\ _items (obj w') = dict (zip ["b"; "a"] [5; 0])
    /\ reads w' = reads w.
Proof.
  apply (load_params_missing_key (fun _ => 7)
           (fresh (init (E:=string) STL 10 false 100 true)) ["b"; "a"] [5; 0]
           (mk_params (Some 60) None (Some "True") (Some "True"))).
  - reflexivity.
  - right. left. reflexivity.
Defined.

Lemma negative_capacity_raises_witness :
  let w := mk_store (with_timing [(5, "b"); (0, "a")] (init STL 10 false (-1) true)) 3 in
  exists w',
    _check_expired (fun _ => 7) w = (Raise IndexError, w')
    /\ items (fun _ => 7) w = (Raise IndexError, w')
    /\ _timing (obj w') = [] /\ _items (obj w') = ∅ /\ reads w' = reads w.
Proof.
  apply (negative_capacity_raises (fun _ => 7)
           (mk_store (with_timing [(5, "b"); (0, "a")] (init STL 10 false (-1) true)) 3)).
  - apply with_timing_wf. apply (bool_decide_unpack _). vm_compute. reflexivity.
  - simpl. lia.
  - left. reflexivity.
Defined.

Lemma dump_snapshot_contract_witness :
  let w := mk_store (with_timing [(5, "b"); (0, "a")] (init STL 10 false 100 true)) 3 in
  exists v w1,
    dump (fun _ => 7) true w = (Return v, w1)
    /\ _check_expired (fun _ => 7) w = (Return tt, w1)
    /\ match v with
       | None => _timing (obj w1) = []
       | Some d =>
           _timing (obj w1) <> []
           /\ (exists tl il,
                 timing_list d = Some tl /\ item_list d = Some il
                 /\ length tl = length il /\ zip tl il = _timing (obj w1))
           /\ params d
              = Some (mk_params (Some (timeout (obj w1)))
                        (Some (max_length (obj w1)))
                        (Some (if retain_one (obj w1) then "True" else "False"))
                        (Some (if threadsafe (obj w1) then "True" else "False")))
       end.
Proof.
  apply (dump_snapshot_contract (fun _ => 7) true
           (mk_store (with_timing [(5, "b"); (0, "a")] (init STL 10 false 100 true)) 3)).
  apply sample_Inv. lia.
Defined.

Lemma deserialize_with_empty_map_witness :
  let w := fresh (init (E:=string) STL 10 false 100 true) in
  deserialize (fun _ => 20) json_loads [[JInt 5; JStr "b"]; [JInt 0; JStr "a"]] w
  = match cls (obj w) with
    | TTL => (Raise TypeError, mk_store (set_timing [(5, "b"); (0, "a")] (obj w)) 1)
    | STL =>
        if STL_expired (obj w) 20 5
        then (Raise (KeyError (inr "a")), mk_store (set_timing [(5, "b")] (obj w)) 1)
        else (Return tt, mk_store (set_timing [(5, "b"); (0, "a")] (obj w)) 1)
    end.
Proof.
  apply (deserialize_with_empty_map (fun _ => 20) json_loads
           [[JInt 5; JStr "b"]; [JInt 0; JStr "a"]]
           (fresh (init (E:=string) STL 10 false 100 true)) [(5, "b")] 0 "a").
  - reflexivity.
  - simpl. lia.
  - reflexivity.
Defined.

(** The same text read at the same time by a new collection of either
    class: the STL collection pops the older record and raises
    [KeyError], the TTL collection raises [TypeError] and keeps both. *)
Lemma deserialize_with_empty_map_evaluated :
  let s := [[JInt 5; JStr "b"]; [JInt 0; JStr "a"]] in
  exists w1 w2,
    deserialize (fun _ => 20) json_loads s (fresh (init (E:=string) STL 10 false 100 true))
    = (Raise (KeyError (inr "a")), w1)
    /\ _timing (obj w1) = [(5, "b")]
    /\ deserialize (fun _ => 20) json_loads s (fresh (init (E:=string) TTL 10 false 100 true))
       = (Raise TypeError, w2)
    /\ _timing (obj w2) = [(5, "b"); (0, "a")].
Proof.
  eexists _, _. split; [vm_compute; reflexivity|]. split; [reflexivity|].
  split; [vm_compute; reflexivity|]. reflexivity.
Qed.

Lemma add_then_items_returns_it_first_witness :
  let w := mk_store (with_timing [(5, "b"); (0, "a")] (init STL 10 false 2 true)) 3 in
  exists old w0 w',
    items (fun _ => 7) w = (Return old, w0)
    /\ (add (fun _ => 7) "c" ;; items (fun _ => 7)) w
       = (Return ("c" :: take (Z.to_nat (max_length (obj w)) - 1)
                           (filter (fun e => e <> "c") old)), w').
Proof.
  apply (add_then_items_returns_it_first (fun _ => 7) 7 0 (fun _ _ => eq_refl) "c"
           (mk_store (with_timing [(5, "b"); (0, "a")] (init STL 10 false 2 true)) 3)).
  - simpl. lia.
  - apply sample_Inv. lia.
  - simpl. lia.
  - simpl. lia.
Defined.

(** The same calls evaluated: the two records are 2 and 7 seconds old,
    [items()] returns both, and after [add("c")] it returns "c" and the
    newer of the two. *)
Lemma add_then_items_evaluated :
  let w := mk_store (with_timing [(5, "b"); (0, "a")] (init STL 10 false 2 true)) 3 in
  exists w0 w',
    items (fun _ => 7) w = (Return ["b"; "a"], w0)
    /\ (add (fun _ => 7) "c" ;; items (fun _ => 7)) w = (Return ["c"; "b"], w').
Proof. eexists _, _. split; vm_compute; reflexivity. Qed.

Lemma stl_sorted_sweep_all_or_nothing_witness :
  let w := mk_store (with_timing [(5, "b"); (0, "a")] (init STL 10 false 100 true)) 3 in
  exists w1,
    items (fun _ => 12) w = (Return (_timing (obj w1)).*2, w1)
    /\ _timing (obj w1)
       = match take (Z.to_nat (max_length (obj w))) (_timing (obj w)) with
         | [] => []
         | (t, x) :: rest =>
             if bool_decide (12 - t > timeout (obj w)) then []
             else (t, x) :: rest
         end.
Proof.
  apply (stl_sorted_sweep_all_or_nothing (fun _ => 12) 12 0 (fun _ _ => eq_refl)
           (mk_store (with_timing [(5, "b"); (0, "a")] (init STL 10 false 100 true)) 3)).
  - simpl. lia.
  - reflexivity.
  - apply sample_Inv. lia.
  - reflexivity.
  - left. reflexivity.
Defined.

Lemma stl_items_twice_witness :
  let w := mk_store (with_timing [(5, "b"); (0, "a")] (init STL 10 false 100 true)) 3 in
  exists l w1 w2,
    items (fun _ => 7) w = (Return l, w1)
    /\ items (fun _ => 7) w1 = (Return l, w2)
    /\ obj w2 = obj w1.
Proof.
  apply (stl_items_twice (fun _ => 7) 7 0 (fun _ _ => eq_refl)
           (mk_store (with_timing [(5, "b"); (0, "a")] (init STL 10 false 100 true)) 3)).
  - simpl. lia.
  - reflexivity.
  - apply sample_Inv. lia.
  - reflexivity.
Defined.

Lemma stl_dump_load_roundtrip_witness :
  let w := mk_store (with_timing [(5, "b"); (0, "a")] (init STL 10 false 100 true)) 3 in
  let y := fresh (init STL 60 true 5 false) in
  exists v w1,
    dump (fun _ => 7) true w = (Return v, w1)
    /\ match v with
       | None => _timing (obj w1) = []
       | Some d =>
           exists y1, load (fun _ => 7) (Some d) y = (Return tt, y1)
                      /\ obj y1 = obj w1
       end.
Proof.
  apply (stl_dump_load_roundtrip (fun _ => 7) 7 0 (fun _ _ => eq_refl)
           (mk_store (with_timing [(5, "b"); (0, "a")] (init STL 10 false 100 true)) 3)
           (fresh (init STL 60 true 5 false))).
  - simpl. lia.
  - simpl. lia.
  - reflexivity.
  - reflexivity.
  - apply sample_Inv. lia.
  - reflexivity.
Defined.

Lemma stl_timing_list_roundtrip_witness :
  let w := mk_store (with_timing [(5, "b"); (0, "a")] (init STL 10 false 100 true)) 3 in
  let y := fresh (init STL 10 false 100 false) in
  exists T1 w1 y1,
    dump_timing_list (fun _ => 7) w = (Return T1, w1)
    /\ load_from_timing_list (fun _ => 7) T1 y = (Return tt, y1)
    /\ _timing (obj w1) = T1
    /\ _timing (obj y1) = T1
    /\ _items (obj y1) = _items (obj w1).
Proof.
  apply (stl_timing_list_roundtrip (fun _ => 7) 7 0 (fun _ _ => eq_refl)
           (mk_store (with_timing [(5, "b"); (0, "a")] (init STL 10 false 100 true)) 3)
           (fresh (init STL 10 false 100 false))).
  - simpl. lia.
  - simpl. lia.
  - reflexivity.
  - reflexivity.
  - apply sample_Inv. lia.
  - reflexivity.
  - reflexivity.
  - reflexivity.
  - reflexivity.
Defined.

Lemma ttl_expiry_test_is_periodic_witness :
  TTL_expired (init (E:=string) TTL 60 false 100 true)
    (seconds 5 + 3 * 86400000000) 0
  = bool_decide ((seconds 5 - 0) / 1000000 > 60).
Proof.
  apply (ttl_expiry_test_is_periodic (init (E:=string) TTL 60 false 100 true)
           (seconds 5) 0 3).
  vm_compute. split; [discriminate|reflexivity].
Defined.

Lemma calls_keep_timing_sorted_witness :
  let w := exec_all Z.of_nat json_dumps json_loads
             [Add "a"; Add "b"; Items; Add "a"]
             (fresh (init STL 10 false 2 true)) in
  newest_first (_timing (obj w)) = true
  /\ (forall rec, rec ∈ _timing (obj w) -> rec.1 <= Z.of_nat (reads w)).
Proof.
  apply (calls_keep_timing_sorted Z.of_nat json_dumps json_loads STL 10 false 2 true
           [Add "a"; Add "b"; Items; Add "a"]).
  - intros n k Hnk. lia.
  - lia.
  - repeat constructor.
Defined.
End TTLMore.
